(** * GNetworkService: SRV-record resolution and its address enumerator

    A shallow embedding of [gio/gnetworkservice.c], as vendored under
    [vendor/samsung/external/glib-2.0].  The service object, the blocking
    enumerator
    [g_network_service_address_enumerator_next] and the callback chain of
    the suspending enumerator ([..._next_async], [next_async_resolved_targets],
    [next_async_have_targets], [next_async_have_address], [..._next_finish])
    are transcribed function by function.  What lives in other files of
    GLib (the resolver, hostname normalisation, URI handling,
    GNetworkAddress and its enumerators) is taken as a collaborator. *)

From Stdlib Require Import String ZArith List Bool Lia DecimalString.
From stdpp Require Import base list strings.
Import ListNotations.
Local Open Scope string_scope.
Local Open Scope Z_scope.
Local Open Scope nat_scope.

(** ** Errors *)

Inductive GErrorDomain := G_IO_ERROR | G_RESOLVER_ERROR.

Inductive GErrorCode :=
| G_IO_ERROR_FAILED
| G_IO_ERROR_INVALID_ARGUMENT
| G_IO_ERROR_CANCELLED
| G_IO_ERROR_HOST_UNREACHABLE
| G_RESOLVER_ERROR_NOT_FOUND
| G_RESOLVER_ERROR_TEMPORARY_FAILURE
| G_RESOLVER_ERROR_INTERNAL.

Record GError := mkGError {
  err_domain : GErrorDomain;
  err_code : GErrorCode;
  err_message : string
}.

(** [g_error_new (G_IO_ERROR, G_IO_ERROR_INVALID_ARGUMENT,
    "Received invalid hostname '%s' from GSrvTarget", hostname)] *)
Definition invalid_hostname_error (hostname : string) : GError :=
  mkGError G_IO_ERROR G_IO_ERROR_INVALID_ARGUMENT
    ("Received invalid hostname '" ++ hostname ++ "' from GSrvTarget").

(** ** Data *)

(** [GSrvTarget]; the three numbers are [guint16] in C. *)
Record GSrvTarget := mkTarget {
  hostname : string;
  port : Z;
  priority : Z;
  weight : Z
}.

(** The C cast [(guint16) x]. *)
Definition guint16 (x : Z) : Z := Z.land x 65535.

(** A candidate socket address; opaque to this file. *)
Definition GSocketAddress := string.

(** A [GNetworkAddress], the per-target connectable. *)
Record GNetworkAddress := mkAddr {
  na_hostname : string;
  na_port : Z;
  na_scheme : option string
}.

(** One pull on a child enumerator.  By the [GError] convention the pull
    returns an address, or [NULL] with the error set, or [NULL] with no
    error when the child has no more addresses. *)
Inductive PullResult :=
| Yield (a : GSocketAddress)
| Fail (e : GError)
| Exhausted.

(** A child [GSocketAddressEnumerator] is the sequence of the results its
    successive pulls give; past the end it stays exhausted. *)
Definition Child := list PullResult.

Definition g_socket_address_enumerator_next (c : Child) : PullResult * Child :=
  match c with
  | [] => (Exhausted, [])
  | r :: c' => (r, c')
  end.

(** One answer of [g_resolver_lookup_service]: a [GList] of targets (the
    empty list is [NULL]) with no error, or [NULL] with the error set. *)
Inductive LookupResult :=
| LookupOk (targets : list GSrvTarget)
| LookupError (e : GError).

(** The resolver: what its n-th lookup answers, and how many lookups were
    made so far. *)
Record GResolver := mkResolver {
  answers : nat -> string -> string -> string -> LookupResult;
  calls : nat
}.

Definition g_resolver_lookup_service (r : GResolver) (service protocol domain : string)
  : LookupResult * GResolver :=
  (answers r (calls r) service protocol domain,
   mkResolver (answers r) (S (calls r))).

Definition GCancellable := nat.
Definition GAsyncReadyCallback := nat.

(** Collaborators whose code is in other files of GLib. *)
Record Collaborators := mkCollaborators {
  g_hostname_to_ascii : string -> option string;
  g_uri_from_authority : string -> string -> Z -> string;
  g_network_address_parse_uri : string -> Z -> GError + GNetworkAddress;
  g_network_address_new : string -> Z -> GNetworkAddress;
  g_socket_connectable_enumerate : GNetworkAddress -> Child;
  g_socket_connectable_proxy_enumerate : GNetworkAddress -> Child
}.

(** ** The service object *)

(** [struct _GNetworkServicePrivate], with the log of property
    notifications the object has emitted (oldest first). *)
Record GNetworkService := mkService {
  service : string;
  protocol : string;
  domain : string;
  scheme : option string;
  targets : list GSrvTarget;
  notified : list string
}.

Definition g_network_service_new (service protocol domain : string) : GNetworkService :=
  mkService service protocol domain None [] [].

Definition g_network_service_get_service (srv : GNetworkService) : string := service srv.
Definition g_network_service_get_protocol (srv : GNetworkService) : string := protocol srv.
Definition g_network_service_get_domain (srv : GNetworkService) : string := domain srv.

Definition g_network_service_get_scheme (srv : GNetworkService) : string :=
  match scheme srv with
  | Some s => s
  | None => service srv
  end.

(** [g_strdup (NULL)] is [NULL]: a null argument clears the override. *)
Definition g_network_service_set_scheme (srv : GNetworkService) (s : option string)
  : GNetworkService :=
  mkService (service srv) (protocol srv) (domain srv) s (targets srv)
            (notified srv ++ ["scheme"]).

Definition set_targets (srv : GNetworkService) (l : list GSrvTarget) : GNetworkService :=
  mkService (service srv) (protocol srv) (domain srv) (scheme srv) l (notified srv).

(** The constructor seen through the interface of the specification: an
    error or a service.  [g_network_service_new] has no failing path. *)
Definition construct (service protocol domain : string) : GError + GNetworkService :=
  inr (g_network_service_new service protocol domain).

(** ** The enumerator *)

(** What a completed suspending step carries ([GSimpleAsyncResult]). *)
Record GSimpleAsyncResult := mkSimple {
  callback : GAsyncReadyCallback;
  simple_error : option GError;
  op_res : option GSocketAddress
}.

(** [GNetworkServiceAddressEnumerator].  The [srv] and [resolver] fields
    point to shared objects; they are kept in [Env]. *)
Record GNetworkServiceAddressEnumerator := mkEnum {
  addr_enum : option Child;
  t : list GSrvTarget;
  use_proxy : bool;
  error : option GError;
  cancellable : option GCancellable;
  result : option GSimpleAsyncResult
}.

Abbreviation Enumerator := GNetworkServiceAddressEnumerator.

Record Env := mkEnv {
  srv : GNetworkService;
  resolver : GResolver
}.

Definition set_addr_enum (e : Enumerator) (c : option Child) : Enumerator :=
  mkEnum c (t e) (use_proxy e) (error e) (cancellable e) (result e).
Definition set_t (e : Enumerator) (l : list GSrvTarget) : Enumerator :=
  mkEnum (addr_enum e) l (use_proxy e) (error e) (cancellable e) (result e).
Definition set_error (e : Enumerator) (x : option GError) : Enumerator :=
  mkEnum (addr_enum e) (t e) (use_proxy e) x (cancellable e) (result e).
Definition set_cancellable (e : Enumerator) (c : option GCancellable) : Enumerator :=
  mkEnum (addr_enum e) (t e) (use_proxy e) (error e) c (result e).
Definition set_result (e : Enumerator) (r : option GSimpleAsyncResult) : Enumerator :=
  mkEnum (addr_enum e) (t e) (use_proxy e) (error e) (cancellable e) r.

(** [if (srv_enum->error == NULL) srv_enum->error = error;] *)
Definition record_error (e : Enumerator) (x : GError) : Enumerator :=
  match error e with
  | None => set_error e (Some x)
  | Some _ => e
  end.

(** [g_network_service_connectable_enumerate] and
    [g_network_service_connectable_proxy_enumerate]: a zeroed object. *)
Definition g_network_service_connectable_enumerate : Enumerator :=
  mkEnum None [] false None None None.
Definition g_network_service_connectable_proxy_enumerate : Enumerator :=
  mkEnum None [] true None None None.

(** What a step hands to the caller: the returned address and [*error]. *)
Definition StepResult : Type := option GSocketAddress * option GError.

Section Enumeration.

Context (C : Collaborators).

(** *** Blocking mode *)

(** The first [if] of the loop body: with no child active and targets
    left, take the next target and build its child enumerator.  The
    boolean tells whether the C [continue] was taken. *)
Definition expand_target (srv : GNetworkService) (e : Enumerator) : Enumerator * bool :=
  match addr_enum e, t e with
  | None, target :: rest =>
      let e := set_t e rest in
      match g_hostname_to_ascii C (hostname target) with
      | None => (record_error e (invalid_hostname_error (hostname target)), true)
      | Some h =>
          let uri := g_uri_from_authority C (g_network_service_get_scheme srv) h (port target) in
          match g_network_address_parse_uri C uri (port target) with
          | inl x => (record_error e x, true)
          | inr addr =>
              (set_addr_enum e
                 (Some (if use_proxy e
                        then g_socket_connectable_proxy_enumerate C addr
                        else g_socket_connectable_enumerate C addr)),
               false)
          end
      end
  | _, _ => (e, false)
  end.

(** The second [if] of the loop body: pull one address from the active
    child; only an error discards the child. *)
Definition pull_child (e : Enumerator) (ret : option GSocketAddress)
  : Enumerator * option GSocketAddress :=
  match addr_enum e with
  | Some c =>
      match g_socket_address_enumerator_next c with
      | (Yield a, c') => (set_addr_enum e (Some c'), Some a)
      | (Exhausted, c') => (set_addr_enum e (Some c'), None)
      | (Fail x, _) => (set_addr_enum (record_error e x) None, None)
      end
  | None => (e, ret)
  end.

Definition loop_body (srv : GNetworkService) (st : Enumerator * option GSocketAddress)
  : Enumerator * option GSocketAddress :=
  let (e, ret) := st in
  let (e1, continued) := expand_target srv e in
  if continued then (e1, ret) else pull_child e1 ret.

(** [while (srv_enum->addr_enum == NULL && srv_enum->t)] *)
Definition loop_cond (e : Enumerator) : bool :=
  match addr_enum e, t e with
  | None, _ :: _ => true
  | _, _ => false
  end.

(** The [do ... while] loop; [fuel] bounds the number of re-entries. *)
Fixpoint do_while (fuel : nat) (srv : GNetworkService)
  (st : Enumerator * option GSocketAddress) : Enumerator * option GSocketAddress :=
  let st' := loop_body srv st in
  if loop_cond (fst st') then
    match fuel with
    | O => st'
    | S n => do_while n srv st'
    end
  else st'.

(** The part of [next] after the targets are known: the loop, then the
    hand-over of the recorded error when no address is returned. *)
Definition delegate (env : Env) (e : Enumerator) : Env * Enumerator * StepResult :=
  let (e', ret) := do_while (length (t e)) (srv env) (e, None) in
  match ret, error e' with
  | None, Some x => (env, set_error e' None, (None, Some x))
  | _, _ => (env, e', (ret, None))
  end.

(** [delegate] with any fuel that covers the work. *)
Definition delegate_with (n : nat) (env : Env) (e : Enumerator) : Env * Enumerator * StepResult :=
  let (e', ret) := do_while n (srv env) (e, None) in
  match ret, error e' with
  | None, Some x => (env, set_error e' None, (None, Some x))
  | _, _ => (env, e', (ret, None))
  end.

Definition g_network_service_address_enumerator_next
  (env : Env) (e : Enumerator) (cancellable : option GCancellable)
  : Env * Enumerator * StepResult :=
  match targets (srv env) with
  | [] =>
      let (ans, r') :=
        g_resolver_lookup_service (resolver env)
          (service (srv env)) (protocol (srv env)) (domain (srv env)) in
      match ans with
      | LookupError x => (mkEnv (srv env) r', e, (None, Some x))
      | LookupOk [] => (mkEnv (srv env) r', e, (None, None))
      | LookupOk (x :: l) =>
          delegate (mkEnv (set_targets (srv env) (x :: l)) r') (set_t e (x :: l))
      end
  | _ :: _ => delegate env e
  end.

(** *** Suspending mode *)

(** An operation handed to a collaborator, with the result its callback
    will receive. *)
Inductive InFlight :=
| LookupInFlight (ans : LookupResult)
| ChildInFlight (r : PullResult).

(** How a call or callback of the suspending enumerator ends: refused at
    entry, waiting for a collaborator's callback, completed (the caller's
    callback runs), or with no result object left to complete. *)
Inductive Scheduled :=
| Rejected
| Waiting (w : InFlight)
| Completed (simple : GSimpleAsyncResult)
| Lost.

Definition g_simple_async_result_set_from_error (simple : GSimpleAsyncResult) (x : GError)
  : GSimpleAsyncResult :=
  mkSimple (callback simple) (Some x) (op_res simple).

Definition g_simple_async_result_set_op_res_gpointer (simple : GSimpleAsyncResult)
  (a : GSocketAddress) : GSimpleAsyncResult :=
  mkSimple (callback simple) (simple_error simple) (Some a).

(** [simple = srv_enum->result; srv_enum->result = NULL; ...;
    g_simple_async_result_complete (simple);] *)
Definition complete (e : Enumerator) (fill : GSimpleAsyncResult -> GSimpleAsyncResult)
  : Enumerator * Scheduled :=
  match result e with
  | Some simple => (set_result e None, Completed (fill simple))
  | None => (e, Lost)
  end.

Definition next_async_have_targets (e : Enumerator) : Enumerator * Scheduled :=
  let e1 :=
    match addr_enum e, t e with
    | None, target :: rest =>
        let addr := g_network_address_new C (hostname target) (guint16 (port target)) in
        set_addr_enum (set_t e rest)
          (Some (if use_proxy e
                 then g_socket_connectable_proxy_enumerate C addr
                 else g_socket_connectable_enumerate C addr))
    | _, _ => e
    end in
  match addr_enum e1 with
  | Some c =>
      let (r, c') := g_socket_address_enumerator_next c in
      (set_addr_enum e1 (Some c'), Waiting (ChildInFlight r))
  | None =>
      match error e1 with
      | Some x =>
          complete (set_error e1 None) (fun simple => g_simple_async_result_set_from_error simple x)
      | None => complete e1 (fun simple => simple)
      end
  end.

Definition next_async_have_address (e : Enumerator) (r : PullResult)
  : Enumerator * Scheduled :=
  match r with
  | Fail x => next_async_have_targets (set_addr_enum (record_error e x) None)
  | Yield a => complete e (fun simple => g_simple_async_result_set_op_res_gpointer simple a)
  | Exhausted => complete e (fun simple => simple)
  end.

Definition next_async_resolved_targets (env : Env) (e : Enumerator) (ans : LookupResult)
  : Env * Enumerator * Scheduled :=
  match ans with
  | LookupError x =>
      let (e', s) := complete e (fun simple => g_simple_async_result_set_from_error simple x) in
      (mkEnv (set_targets (srv env) []) (resolver env), e', s)
  | LookupOk l =>
      let env' := mkEnv (set_targets (srv env) l) (resolver env) in
      let (e', s) := next_async_have_targets (set_t e l) in
      (env', e', s)
  end.

Definition g_network_service_address_enumerator_next_async
  (env : Env) (e : Enumerator) (cancellable : option GCancellable) (cb : GAsyncReadyCallback)
  : Env * Enumerator * Scheduled :=
  match result e with
  | Some _ => (env, e, Rejected)
  | None =>
      let e1 := set_result e (Some (mkSimple cb None None)) in
      let e2 :=
        match cancellable with
        | Some c => set_cancellable e1 (Some c)
        | None => e1
        end in
      match targets (srv env) with
      | [] =>
          let (ans, r') :=
            g_resolver_lookup_service (resolver env)
              (service (srv env)) (protocol (srv env)) (domain (srv env)) in
          (mkEnv (srv env) r', e2, Waiting (LookupInFlight ans))
      | _ :: _ =>
          let (e3, s) := next_async_have_targets e2 in
          (env, e3, s)
      end
  end.

Definition g_network_service_address_enumerator_next_finish (simple : GSimpleAsyncResult)
  : StepResult :=
  match simple_error simple with
  | Some x => (None, Some x)
  | None => (op_res simple, None)
  end.

(** The main loop runs the callback of the operation in flight. *)
Definition dispatch (env : Env) (e : Enumerator) (w : InFlight)
  : Env * Enumerator * Scheduled :=
  match w with
  | LookupInFlight ans => next_async_resolved_targets env e ans
  | ChildInFlight r =>
      let (e', s) := next_async_have_address e r in
      (env, e', s)
  end.

Fixpoint main_loop (fuel : nat) (env : Env) (e : Enumerator) (s : Scheduled)
  : Env * Enumerator * Scheduled :=
  match s with
  | Waiting w =>
      match fuel with
      | O => (env, e, s)
      | S n =>
          let '(env', e', s') := dispatch env e w in
          main_loop n env' e' s'
      end
  | _ => (env, e, s)
  end.

(** A bound on the callbacks still to run before the step completes. *)
Definition pending_work (e : Enumerator) (s : Scheduled) : nat :=
  match s with
  | Waiting (LookupInFlight (LookupOk l)) => 2 + length l
  | Waiting (LookupInFlight (LookupError _)) => 1
  | Waiting (ChildInFlight _) => 1 + length (t e)
  | _ => 0
  end.

(** One whole suspending step: [next_async], then the main loop until
    the caller's callback has run. *)
Definition next_suspending
  (env : Env) (e : Enumerator) (cancellable : option GCancellable) (cb : GAsyncReadyCallback)
  : Env * Enumerator * Scheduled :=
  let '(env1, e1, s1) := g_network_service_address_enumerator_next_async env e cancellable cb in
  main_loop (pending_work e1 s1) env1 e1 s1.

End Enumeration.

(** ** Several enumerators over one service *)

(** The service and the default resolver are shared by every enumerator
    made from the service; each enumerator owns its cursor. *)
Record System := mkSystem {
  env : Env;
  enums : list Enumerator
}.

Inductive Action :=
| Enumerate
| ProxyEnumerate
| SetScheme (s : option string)
| Next (i : nat) (c : option GCancellable)
| NextSuspending (i : nat) (c : option GCancellable) (cb : GAsyncReadyCallback).

(** What the caller of a suspending step receives, if anything. *)
Definition delivered (s : Scheduled) : option StepResult :=
  match s with
  | Completed simple => Some (g_network_service_address_enumerator_next_finish simple)
  | _ => None
  end.

Definition sys_step (C : Collaborators) (sys : System) (a : Action)
  : System * option StepResult :=
  match a with
  | Enumerate =>
      (mkSystem (env sys) (enums sys ++ [g_network_service_connectable_enumerate]), None)
  | ProxyEnumerate =>
      (mkSystem (env sys) (enums sys ++ [g_network_service_connectable_proxy_enumerate]), None)
  | SetScheme s =>
      (mkSystem (mkEnv (g_network_service_set_scheme (srv (env sys)) s) (resolver (env sys)))
                (enums sys), None)
  | Next i c =>
      match enums sys !! i with
      | Some e =>
          let '(env', e', r) := g_network_service_address_enumerator_next C (env sys) e c in
          (mkSystem env' (<[i := e']> (enums sys)), Some r)
      | None => (sys, None)
      end
  | NextSuspending i c cb =>
      match enums sys !! i with
      | Some e =>
          let '(env', e', s) := next_suspending C (env sys) e c cb in
          (mkSystem env' (<[i := e']> (enums sys)), delivered s)
      | None => (sys, None)
      end
  end.

Fixpoint run (C : Collaborators) (sys : System) (acts : list Action) : System :=
  match acts with
  | [] => sys
  | a :: acts' => run C (fst (sys_step C sys a)) acts'
  end.

(** The results handed to the callers along a run, in order. *)
Fixpoint outputs (C : Collaborators) (sys : System) (acts : list Action)
  : list (option StepResult) :=
  match acts with
  | [] => []
  | a :: acts' =>
      let (sys', r) := sys_step C sys a in
      r :: outputs C sys' acts'
  end.

(** A new service with its resolver and no enumerator yet. *)
Definition initial (service protocol domain : string)
  (answers : nat -> string -> string -> string -> LookupResult) : System :=
  mkSystem (mkEnv (g_network_service_new service protocol domain) (mkResolver answers 0)) [].

(** ** Measures and invariants used in the proofs *)

(** Targets left, plus one for an active child: a bound on the loop. *)
Definition work (e : Enumerator) : nat :=
  length (t e) + match addr_enum e with Some _ => 1 | None => 0 end.

(** A step has settled when no collaborator callback is awaited. *)
Definition settled (s : Scheduled) : Prop :=
  match s with
  | Waiting _ => False
  | _ => True
  end.

(** When a suspending step has run the caller's callback, no result
    object is outstanding; and only the entry check refuses. *)
Definition quiescent (e : Enumerator) (s : Scheduled) : Prop :=
  match s with
  | Completed _ | Lost => result e = None
  | Rejected => False
  | Waiting _ => True
  end.

(** What an answer leaves in the service: its list, or nothing. *)
Definition answered (ans : LookupResult) : list GSrvTarget :=
  match ans with
  | LookupOk l => l
  | LookupError _ => []
  end.

(** The answer the resolver gives to the next lookup for the service. *)
Definition next_answer (env : Env) : LookupResult :=
  answers (resolver env) (calls (resolver env))
    (service (srv env)) (protocol (srv env)) (domain (srv env)).

(** What the caller sees when the lookup of the step gave no target. *)
Definition no_targets_outcome (ans : LookupResult) : StepResult :=
  match ans with
  | LookupError x => (None, Some x)
  | LookupOk _ => (None, None)
  end.

(** A cursor agrees with the service when no result object is
    outstanding and, as long as the service has no targets, the cursor
    has no child and no recorded error. *)
Definition cursor_ok (srv : GNetworkService) (e : Enumerator) : Prop :=
  result e = None /\ (targets srv = [] -> addr_enum e = None /\ error e = None).

Definition coherent (sys : System) : Prop :=
  Forall (cursor_ok (srv (env sys))) (enums sys).

(** ** Property plumbing *)

(** The property ids of the [enum] at the head of the file. *)
Definition PROP_0 : nat := 0.
Definition PROP_SERVICE : nat := 1.
Definition PROP_PROTOCOL : nat := 2.
Definition PROP_DOMAIN : nat := 3.
Definition PROP_SCHEME : nat := 4.

(** The calls of [g_object_class_install_property] in
    [g_network_service_class_init], in order: the id passed and the name
    of the property installed. *)
Definition g_network_service_class_init : list (nat * string) :=
  [(PROP_SERVICE, "service"); (PROP_PROTOCOL, "protocol");
   (PROP_DOMAIN, "domain"); (PROP_DOMAIN, "scheme")].

(** The id under which a property name was installed. *)
Definition installed_id (name : string) : option nat :=
  fst <$> List.find (fun p => String.eqb (snd p) name) g_network_service_class_init.

(** [g_network_service_set_property], for a [GValue] that holds a
    string; an id outside the [switch] only warns. *)
Definition g_network_service_set_property (srv : GNetworkService) (prop_id : nat)
  (value : string) : GNetworkService :=
  match prop_id with
  | 1 => mkService value (protocol srv) (domain srv) (scheme srv) (targets srv) (notified srv)
  | 2 => mkService (service srv) value (domain srv) (scheme srv) (targets srv) (notified srv)
  | 3 => mkService (service srv) (protocol srv) value (scheme srv) (targets srv) (notified srv)
  | 4 => g_network_service_set_scheme srv (Some value)
  | _ => srv
  end.

(** [g_network_service_get_property]: the string put in the [GValue],
    if the id is one of the [switch]. *)
Definition g_network_service_get_property (srv : GNetworkService) (prop_id : nat)
  : option string :=
  match prop_id with
  | 1 => Some (g_network_service_get_service srv)
  | 2 => Some (g_network_service_get_protocol srv)
  | 3 => Some (g_network_service_get_domain srv)
  | 4 => Some (g_network_service_get_scheme srv)
  | _ => None
  end.

(** ** The walk both modes perform *)

(** How a walk over the targets ends: the child gave an address, the
    child reported that it has no more, or no target is left. *)
Inductive WalkEnd :=
| Yielded (a : GSocketAddress)
| Dry
| Finished.

(** The end of a walk: the child left active, the targets not taken, and
    the error slot. *)
Record Walk := mkWalk {
  w_end : WalkEnd;
  w_child : option Child;
  w_rest : list GSrvTarget;
  w_slot : option GError
}.

Definition first_write (slot : option GError) (x : GError) : option GError :=
  match slot with
  | Some y => Some y
  | None => Some x
  end.

(** One pull on a child; [k] goes on when the pull fails. *)
Definition pulled (c : Child) (rest : list GSrvTarget) (slot : option GError)
  (k : option GError -> Walk) : Walk :=
  match g_socket_address_enumerator_next c with
  | (Yield a, c') => mkWalk (Yielded a) (Some c') rest slot
  | (Exhausted, c') => mkWalk Dry (Some c') rest slot
  | (Fail x, _) => k (first_write slot x)
  end.

(** The walk from a cursor with no child; [child_of] makes the child of
    a target or refuses the target with an error. *)
Fixpoint walk (child_of : GSrvTarget -> GError + Child) (ts : list GSrvTarget)
  (slot : option GError) : Walk :=
  match ts with
  | [] => mkWalk Finished None [] slot
  | x :: rest =>
      match child_of x with
      | inl err => walk child_of rest (first_write slot err)
      | inr c => pulled c rest slot (walk child_of rest)
      end
  end.

(** The walk from any cursor: an active child is pulled first. *)
Definition resume (child_of : GSrvTarget -> GError + Child) (ae : option Child)
  (ts : list GSrvTarget) (slot : option GError) : Walk :=
  match ae with
  | Some c => pulled c ts slot (walk child_of ts)
  | None => walk child_of ts slot
  end.

(** The child the blocking mode makes for a target: hostname to ASCII,
    URI with the scheme of the service, parsed into a network address. *)
Definition blocking_child (C : Collaborators) (srv : GNetworkService) (proxy : bool)
  (x : GSrvTarget) : GError + Child :=
  match g_hostname_to_ascii C (hostname x) with
  | None => inl (invalid_hostname_error (hostname x))
  | Some h =>
      match g_network_address_parse_uri C
              (g_uri_from_authority C (g_network_service_get_scheme srv) h (port x))
              (port x) with
      | inl err => inl err
      | inr addr =>
          inr (if proxy
               then g_socket_connectable_proxy_enumerate C addr
               else g_socket_connectable_enumerate C addr)
      end
  end.

(** The child the suspending mode makes: the raw hostname and the port. *)
Definition suspending_child (C : Collaborators) (proxy : bool) (x : GSrvTarget)
  : GError + Child :=
  let addr := g_network_address_new C (hostname x) (guint16 (port x)) in
  inr (if proxy
       then g_socket_connectable_proxy_enumerate C addr
       else g_socket_connectable_enumerate C addr).

(** The cursor and the result of a blocking step whose walk ended in [w]:
    without an address the slot is handed over and emptied. *)
Definition blocking_after (e : Enumerator) (w : Walk) : Enumerator * StepResult :=
  match w_end w with
  | Yielded a =>
      (mkEnum (w_child w) (w_rest w) (use_proxy e) (w_slot w) (cancellable e) (result e),
       (Some a, None))
  | _ =>
      (mkEnum (w_child w) (w_rest w) (use_proxy e) None (cancellable e) (result e),
       (None, w_slot w))
  end.

(** The cursor and the completed result of a suspending step whose walk
    ended in [w]: the slot is handed over only when no target is left. *)
Definition suspending_after (e : Enumerator) (simple : GSimpleAsyncResult) (w : Walk)
  : Enumerator * GSimpleAsyncResult :=
  match w_end w with
  | Yielded a =>
      (mkEnum (w_child w) (w_rest w) (use_proxy e) (w_slot w) (cancellable e) None,
       g_simple_async_result_set_op_res_gpointer simple a)
  | Dry =>
      (mkEnum (w_child w) (w_rest w) (use_proxy e) (w_slot w) (cancellable e) None, simple)
  | Finished =>
      (mkEnum (w_child w) (w_rest w) (use_proxy e) None (cancellable e) None,
       match w_slot w with
       | Some x => g_simple_async_result_set_from_error simple x
       | None => simple
       end)
  end.

(** The cursor as [next_async] leaves it before anything is scheduled:
    the result object of the step, and the cancellable if one is given. *)
Definition armed (e : Enumerator) (c : option GCancellable) (cb : GAsyncReadyCallback)
  : Enumerator :=
  let e1 := set_result e (Some (mkSimple cb None None)) in
  match c with
  | Some c' => set_cancellable e1 (Some c')
  | None => e1
  end.

(** The error a target gives at once: refused, or the first pull on its
    child fails. *)
Definition fails_at_once (child_of : GSrvTarget -> GError + Child) (x : GSrvTarget)
  : option GError :=
  match child_of x with
  | inl err => Some err
  | inr c =>
      match g_socket_address_enumerator_next c with
      | (Fail err, _) => Some err
      | _ => None
      end
  end.

(** The result object of an accepted suspending step, followed to its
    completion: outstanding while a callback is awaited, handed to the
    caller's callback at the end. *)
Definition tracked (cb : GAsyncReadyCallback) (e : Enumerator) (s : Scheduled) : Prop :=
  match s with
  | Waiting _ => exists simple, result e = Some simple /\ callback simple = cb
  | Completed simple => result e = None /\ callback simple = cb
  | Rejected | Lost => False
  end.

(** In every state a service and its enumerators reach, each cursor
    stands on a tail of the list stored in the service. *)
Definition cursors_on_targets (sys : System) : Prop :=
  Forall (fun e => t e `suffix_of` targets (srv (env sys))) (enums sys).



(** The two ways a blocking step comes to take targets from the cursor.
    Between steps a cursor has a child or no target left, so a step
    takes targets either right after the lookup that resolves the
    service, or right after the pull on its active child has failed.
    [walk_start env e env1 e1]: the step from [env] and [e] has reached
    service [env1] and cursor [e1], with no child and targets to take. *)
Inductive walk_start : Env -> Enumerator -> Env -> Enumerator -> Prop :=
| start_resolving (env : Env) (e : Enumerator) (y : GSrvTarget) (l : list GSrvTarget) :
    targets (srv env) = [] ->
    next_answer env = LookupOk (y :: l) ->
    addr_enum e = None ->
    walk_start env e
      (mkEnv (set_targets (srv env) (y :: l))
             (mkResolver (answers (resolver env)) (S (calls (resolver env)))))
      (set_t e (y :: l))
| start_child_failed (env : Env) (e : Enumerator) (ch ch' : Child) (x : GError) :
    targets (srv env) <> [] ->
    addr_enum e = Some ch ->
    g_socket_address_enumerator_next ch = (Fail x, ch') ->
    walk_start env e env (set_addr_enum (record_error e x) None).

(** The slot after the targets [pre], each of which fails at once, were
    taken in order: the first error stays. *)
Definition slot_after (child_of : GSrvTarget -> GError + Child) (pre : list GSrvTarget)
  (slot : option GError) : option GError :=
  fold_left (fun s y => match fails_at_once child_of y with
                        | Some err => first_write s err
                        | None => s
                        end) pre slot.

(** ** Concrete collaborators for the examples *)

Module Demo.

Definition to_ascii (h : string) : option string :=
  if String.eqb h "not a hostname" then None else Some h.

Definition uri_from_authority (scheme host : string) (port : Z) : string :=
  scheme ++ "://" ++ host ++ ":" ++ NilZero.string_of_int (Z.to_int port).

Definition parse_error (uri : string) : GError :=
  mkGError G_IO_ERROR G_IO_ERROR_INVALID_ARGUMENT ("Invalid URI '" ++ uri ++ "'").

(** Splits [scheme://host:port]; an empty host is refused. *)
Definition parse_uri (uri : string) (default_port : Z) : GError + GNetworkAddress :=
  match index 0 "://" uri with
  | Some n =>
      let rest := substring (n + 3) (String.length uri - (n + 3)) uri in
      match index 0 ":" rest with
      | Some (S m) => inr (mkAddr (substring 0 (S m) rest) default_port (Some (substring 0 n uri)))
      | _ => inl (parse_error uri)
      end
  | None => inl (parse_error uri)
  end.

Definition address_new (host : string) (port : Z) : GNetworkAddress :=
  mkAddr host port None.

Definition unreachable : GError :=
  mkGError G_IO_ERROR G_IO_ERROR_HOST_UNREACHABLE "Host unreachable".
Definition cancelled : GError :=
  mkGError G_IO_ERROR G_IO_ERROR_CANCELLED "Operation was cancelled".
Definition not_found (host : string) : GError :=
  mkGError G_RESOLVER_ERROR G_RESOLVER_ERROR_NOT_FOUND ("Error resolving '" ++ host ++ "'").

(** Direct enumeration: what each host resolves to. *)
Definition enumerate (addr : GNetworkAddress) : Child :=
  let h := na_hostname addr in
  if String.eqb h "ldap1.example.com" then [Yield "10.0.0.1:389"; Yield "10.0.0.2:389"]
  else if String.eqb h "ldap2.example.com" then [Yield "10.0.1.1:389"]
  else if String.eqb h "ldap3.example.com" then [Yield "10.0.2.1:389"]
  else if String.eqb h "down.example.com" then [Fail unreachable]
  else if String.eqb h "slow.example.com" then [Fail cancelled]
  else [Fail (not_found h)].

(** Proxy-aware enumeration: the proxy is chosen by the URI scheme. *)
Definition proxy_enumerate (addr : GNetworkAddress) : Child :=
  match na_scheme addr with
  | Some s => [Yield ("proxy." ++ s ++ ".example.com:3128")]
  | None => [Yield "proxy.none.example.com:3128"]
  end.

Definition collaborators : Collaborators :=
  mkCollaborators to_ascii uri_from_authority parse_uri address_new enumerate proxy_enumerate.

(** The targets of the examples: host, port, priority, weight. *)
Definition ldap1 : GSrvTarget := mkTarget "ldap1.example.com" 389 0 5.
Definition ldap2 : GSrvTarget := mkTarget "ldap2.example.com" 389 10 0.
Definition ldap3 : GSrvTarget := mkTarget "ldap3.example.com" 389 20 0.
Definition down : GSrvTarget := mkTarget "down.example.com" 389 0 0.
Definition slow : GSrvTarget := mkTarget "slow.example.com" 389 0 0.
Definition garbled : GSrvTarget := mkTarget "not a hostname" 389 0 0.
Definition hostless : GSrvTarget := mkTarget "" 389 0 0.

(** A resolver that gives the same answer to every lookup. *)
Definition always (ans : LookupResult) : nat -> string -> string -> string -> LookupResult :=
  fun _ _ _ _ => ans.

Definition ldap (ans : LookupResult) : System :=
  initial "ldap" "tcp" "example.com" (always ans).

(** The service [ldap/tcp/example.com] whose lookups answer [l], with one
    direct enumerator, or one proxy-aware enumerator. *)
Definition direct (l : list GSrvTarget) : System :=
  run collaborators (ldap (LookupOk l)) [Enumerate].
Definition proxied (l : list GSrvTarget) : System :=
  run collaborators (ldap (LookupOk l)) [ProxyEnumerate].

(** [n] steps of enumerator 0, blocking or suspending. *)
Definition blocking (n : nat) : list Action := repeat (Next 0 None) n.
Definition suspending (n : nat) : list Action := repeat (NextSuspending 0 None 7) n.

(** The environment of a resolved service, and a cursor on given targets. *)
Definition resolved (l : list GSrvTarget) : Env :=
  mkEnv (mkService "ldap" "tcp" "example.com" None l []) (mkResolver (always (LookupOk l)) 1).
Definition cursor (l : list GSrvTarget) : Enumerator :=
  mkEnum None l false None None None.

(** Two enumerators of one service, none of them stepped yet. *)
Definition pair : System :=
  run collaborators (ldap (LookupOk [ldap1; ldap2])) [Enumerate; ProxyEnumerate].

(** The service after its first lookup was started. *)
Definition looked_up : Env :=
  mkEnv (g_network_service_new "ldap" "tcp" "example.com")
        (mkResolver (always (LookupOk [ldap1])) 1).

(** A cursor whose suspending step waits for the lookup it started. *)
Definition waiting_cursor : Enumerator :=
  mkEnum None [] false None None (Some (mkSimple 7 None None)).

(** A service whose lookups fail. *)
Definition unanswered : Env :=
  mkEnv (g_network_service_new "ldap" "tcp" "example.com")
        (mkResolver (always (LookupError (not_found "_ldap._tcp.example.com"))) 0).

(** A cursor that carries the error of an earlier target. *)
Definition burdened : Enumerator :=
  mkEnum None [ldap2] false (Some unreachable) None None.


(** A cursor whose active child fails on the next pull, standing before
    a target with a refused URI, one with a refused hostname, and a good
    one. *)
Definition stalled : Enumerator :=
  mkEnum (Some [Fail unreachable]) [hostless; garbled; ldap2] false None None None.

(** A new service whose lookup answers with a target of refused URI
    followed by a good one. *)
Definition unresolved_hostless : Env :=
  env (ldap (LookupOk [hostless; ldap2])).

End Demo.

(** * Properties *)

(** Case analysis on every [match] in sight. *)
Ltac enum_cases := repeat (case_match; simplify_eq/=).

(** ** The service object *)

(** C10. [set_scheme] with a null value clears the override, so that
    [get_scheme] gives the service name again; with a string [s],
    [get_scheme] gives [s]; and every call emits one notification for
    the "scheme" property. *)
Theorem set_scheme_then_get_scheme (srv : GNetworkService) :
  g_network_service_get_scheme (g_network_service_set_scheme srv None)
    = g_network_service_get_service srv
  /\ (forall s, g_network_service_get_scheme (g_network_service_set_scheme srv (Some s)) = s)
  /\ (forall s, notified (g_network_service_set_scheme srv s)
                 = (notified srv ++ ["scheme"])%list).
Proof.
  repeat split.
Qed.

(** Setting the scheme touches neither the identity nor the targets. *)
Lemma set_scheme_keeps_identity (srv : GNetworkService) (s : option string) :
  let srv' := g_network_service_set_scheme srv s in
  service srv' = service srv /\ protocol srv' = protocol srv
  /\ domain srv' = domain srv /\ targets srv' = targets srv.
Proof.
  repeat split.
Qed.

(** C8, as the code has it: construction never fails; it stores the three
    strings as given, empty or not, with no scheme override and no
    targets. *)
Theorem construct_always_succeeds (s p d : string) :
  exists srv, construct s p d = inr srv
    /\ g_network_service_get_service srv = s
    /\ g_network_service_get_protocol srv = p
    /\ g_network_service_get_domain srv = d
    /\ g_network_service_get_scheme srv = s
    /\ targets srv = [].
Proof.
  eexists. split; [reflexivity |]. repeat split.
Qed.

(** C8, counterexample: an empty service name is accepted. *)
Lemma construct_empty_service_accepted :
  construct "" "tcp" "example.com" = inr (mkService "" "tcp" "example.com" None [] [])
  /\ ~ (exists x, construct "" "tcp" "example.com" = inl x).
Proof.
  split; [reflexivity |]. intros [x Hx]. discriminate Hx.
Qed.

(** ** The error slot *)

Lemma record_error_first_write (e : Enumerator) (x y : GError) :
  error e = Some x -> record_error e y = e.
Proof.
  intros H. unfold record_error. now rewrite H.
Qed.

Lemma record_error_empty (e : Enumerator) (y : GError) :
  error e = None -> record_error e y = set_error e (Some y).
Proof.
  intros H. unfold record_error. now rewrite H.
Qed.

Lemma record_error_fields (e : Enumerator) (y : GError) :
  addr_enum (record_error e y) = addr_enum e
  /\ t (record_error e y) = t e
  /\ use_proxy (record_error e y) = use_proxy e
  /\ result (record_error e y) = result e
  /\ cancellable (record_error e y) = cancellable e.
Proof.
  unfold record_error. destruct (error e); repeat split.
Qed.

Section EnumerationFacts.

Context (C : Collaborators).

(** ** The loop of the blocking mode *)

Lemma loop_body_work (srv : GNetworkService) (e : Enumerator) (ret : option GSocketAddress) :
  loop_cond (fst (loop_body C srv (e, ret))) = true ->
  work (fst (loop_body C srv (e, ret))) < work e.
Proof.
  destruct e as [ae ts up er ca re].
  unfold loop_body, expand_target, pull_child, loop_cond, work, record_error,
    g_socket_address_enumerator_next, set_t, set_addr_enum, set_error; simpl.
  intros H. enum_cases; lia.
Qed.

Lemma do_while_eq (srv : GNetworkService) (n : nat) (st : Enumerator * option GSocketAddress) :
  do_while C n srv st =
    if loop_cond (fst (loop_body C srv st)) then
      match n with
      | O => loop_body C srv st
      | S m => do_while C m srv (loop_body C srv st)
      end
    else loop_body C srv st.
Proof.
  destruct n; reflexivity.
Qed.

Lemma loop_cond_work (e : Enumerator) : loop_cond e = true -> 1 <= work e.
Proof.
  unfold loop_cond, work. destruct (addr_enum e), (t e); simpl; intros; try discriminate; lia.
Qed.

(** With fuel for the work at hand the loop leaves by its condition. *)
Lemma do_while_exit (srv : GNetworkService) (n : nat) :
  forall st, work (fst st) <= S n -> loop_cond (fst (do_while C n srv st)) = false.
Proof.
  induction n as [| n IH]; intros [e ret] Hw; rewrite do_while_eq;
    destruct (loop_cond (fst (loop_body C srv (e, ret)))) eqn:Hc; try exact Hc;
    pose proof (loop_body_work srv e ret Hc) as Hlt;
    pose proof (loop_cond_work _ Hc) as Hge; simpl in Hw.
  - lia.
  - apply IH. lia.
Qed.

(** More fuel than needed changes nothing. *)
Lemma do_while_fuel (srv : GNetworkService) (n : nat) :
  forall m st, work (fst st) <= S n -> work (fst st) <= S m ->
    do_while C n srv st = do_while C m srv st.
Proof.
  induction n as [| n IH]; intros m [e ret] Hn Hm; rewrite (do_while_eq srv m), do_while_eq;
    destruct (loop_cond (fst (loop_body C srv (e, ret)))) eqn:Hc; try reflexivity;
    pose proof (loop_body_work srv e ret Hc) as Hlt;
    pose proof (loop_cond_work _ Hc) as Hge; simpl in Hn, Hm.
  - lia.
  - destruct m as [| m]; [lia |]. apply IH; lia.
Qed.

(** *** One iteration, case by case *)

Lemma loop_body_active (srv : GNetworkService) (e : Enumerator) ret (c : Child) :
  addr_enum e = Some c -> loop_body C srv (e, ret) = pull_child e ret.
Proof.
  intros H. unfold loop_body, expand_target. now rewrite H.
Qed.

Lemma loop_body_idle (srv : GNetworkService) (e : Enumerator) ret :
  addr_enum e = None -> t e = [] -> loop_body C srv (e, ret) = (e, ret).
Proof.
  intros H1 H2. unfold loop_body, expand_target, pull_child. now rewrite H1, H2, H1.
Qed.

Lemma loop_body_bad_hostname (srv : GNetworkService) (e : Enumerator) ret x rest :
  addr_enum e = None -> t e = x :: rest ->
  g_hostname_to_ascii C (hostname x) = None ->
  loop_body C srv (e, ret)
    = (record_error (set_t e rest) (invalid_hostname_error (hostname x)), ret).
Proof.
  intros H1 H2 H3. unfold loop_body, expand_target. now rewrite H1, H2, H3.
Qed.

Lemma loop_body_bad_uri (srv : GNetworkService) (e : Enumerator) ret x rest h err :
  addr_enum e = None -> t e = x :: rest ->
  g_hostname_to_ascii C (hostname x) = Some h ->
  g_network_address_parse_uri C
    (g_uri_from_authority C (g_network_service_get_scheme srv) h (port x)) (port x) = inl err ->
  loop_body C srv (e, ret) = (record_error (set_t e rest) err, ret).
Proof.
  intros H1 H2 H3 H4. unfold loop_body, expand_target. now rewrite H1, H2, H3, H4.
Qed.

Lemma loop_body_child (srv : GNetworkService) (e : Enumerator) ret x rest h addr :
  addr_enum e = None -> t e = x :: rest ->
  g_hostname_to_ascii C (hostname x) = Some h ->
  g_network_address_parse_uri C
    (g_uri_from_authority C (g_network_service_get_scheme srv) h (port x)) (port x) = inr addr ->
  loop_body C srv (e, ret)
    = pull_child
        (set_addr_enum (set_t e rest)
           (Some (if use_proxy e
                  then g_socket_connectable_proxy_enumerate C addr
                  else g_socket_connectable_enumerate C addr))) ret.
Proof.
  intros H1 H2 H3 H4. unfold loop_body, expand_target. now rewrite H1, H2, H3, H4.
Qed.

(** *** The slot is written once *)

Lemma loop_body_first_write (srv : GNetworkService) (e : Enumerator) ret (x : GError) :
  error e = Some x -> error (fst (loop_body C srv (e, ret))) = Some x.
Proof.
  destruct e as [ae ts up er ca re]; simpl. intros ->.
  unfold loop_body, expand_target, pull_child, record_error,
    g_socket_address_enumerator_next, set_t, set_addr_enum, set_error; simpl.
  enum_cases; reflexivity.
Qed.

Lemma do_while_first_write (srv : GNetworkService) (n : nat) (x : GError) :
  forall st, error (fst st) = Some x -> error (fst (do_while C n srv st)) = Some x.
Proof.
  induction n as [| n IH]; intros [e ret] H; rewrite do_while_eq;
    pose proof (loop_body_first_write srv e ret x H) as Hb;
    destruct (loop_cond (fst (loop_body C srv (e, ret)))); auto.
Qed.

(** The loop never clears the slot: an empty slot after it was empty before. *)
Lemma do_while_slot_empty (srv : GNetworkService) (n : nat) :
  forall st, error (fst (do_while C n srv st)) = None -> error (fst st) = None.
Proof.
  intros st H. destruct (error (fst st)) as [x |] eqn:E; [| reflexivity].
  rewrite (do_while_first_write srv n x st E) in H. discriminate.
Qed.

(** *** The walk after the targets are known *)

Lemma delegate_keeps_env (env : Env) (e : Enumerator) :
  fst (fst (delegate C env e)) = env.
Proof.
  unfold delegate. destruct (do_while C (length (t e)) (srv env) (e, None)) as [e' ret].
  destruct ret; [reflexivity |]. destruct (error e'); reflexivity.
Qed.

(** The fuel [delegate] gives to the loop is enough: the loop is left
    through its condition, with a child active or no target left. *)
Lemma delegate_leaves_loop (env : Env) (e : Enumerator) :
  loop_cond (snd (fst (delegate C env e))) = false.
Proof.
  unfold delegate.
  pose proof (do_while_exit (srv env) (length (t e)) (e, None)) as H.
  destruct (do_while C _ _ _) as [e' ret]. simpl in H.
  assert (Hc : loop_cond e' = false).
  { apply H. unfold work. destruct (addr_enum e); lia. }
  destruct ret; [exact Hc |]. destruct (error e'); exact Hc.
Qed.

(** An error is handed over only with no address, and the slot is empty
    afterwards. *)
Lemma delegate_hand_over (env env' : Env) (e e' : Enumerator) ret (x : GError) :
  delegate C env e = (env', e', (ret, Some x)) -> ret = None /\ error e' = None.
Proof.
  unfold delegate. destruct (do_while C _ _ _) as [e1 r1].
  destruct r1; [discriminate |]. destruct (error e1); [| discriminate].
  intros H. simplify_eq. split; reflexivity.
Qed.

Lemma delegate_fuel (n : nat) (env : Env) (e : Enumerator) :
  work e <= S n -> delegate C env e = delegate_with C n env e.
Proof.
  intros H. unfold delegate, delegate_with.
  rewrite (do_while_fuel (srv env) (length (t e)) n); [reflexivity | | exact H].
  simpl. unfold work. destruct (addr_enum e); lia.
Qed.

(** An iteration that leaves no child and takes no address from one is
    absorbed by the walk from the state it leaves. *)
Lemma delegate_skip (env : Env) (e e1 : Enumerator) :
  loop_body C (srv env) (e, None) = (e1, None) ->
  addr_enum e1 = None ->
  work e1 <= work e ->
  delegate C env e = delegate C env e1.
Proof.
  intros Hb Hc Hw.
  rewrite (delegate_fuel (S (work e)) env e), (delegate_fuel (work e) env e1); try lia.
  unfold delegate_with. rewrite do_while_eq, Hb. simpl fst.
  destruct (loop_cond e1) eqn:Hl; [reflexivity |].
  assert (Ht : t e1 = []).
  { revert Hl. unfold loop_cond. rewrite Hc. destruct (t e1); [reflexivity | discriminate]. }
  rewrite do_while_eq, (loop_body_idle (srv env) e1 None Hc Ht). simpl fst. rewrite Hl.
  reflexivity.
Qed.

Lemma next_resolved (env : Env) (e : Enumerator) (c : option GCancellable) :
  targets (srv env) <> [] ->
  g_network_service_address_enumerator_next C env e c = delegate C env e.
Proof.
  intros H. unfold g_network_service_address_enumerator_next.
  destruct (targets (srv env)); [contradiction | reflexivity].
Qed.

(** *** Targets that cannot be expanded *)

(** A target whose hostname does not normalise is skipped: the error goes
    to the slot if it is empty and the step goes on with the targets
    that follow. *)
Lemma next_skips_bad_hostname (env : Env) (e : Enumerator) (c : option GCancellable)
    (x : GSrvTarget) (rest : list GSrvTarget) :
  targets (srv env) <> [] ->
  addr_enum e = None -> t e = x :: rest ->
  g_hostname_to_ascii C (hostname x) = None ->
  g_network_service_address_enumerator_next C env e c
    = g_network_service_address_enumerator_next C env
        (record_error (set_t e rest) (invalid_hostname_error (hostname x))) c.
Proof.
  intros Hr Ha Ht Hh. rewrite !next_resolved by exact Hr.
  destruct (record_error_fields (set_t e rest) (invalid_hostname_error (hostname x)))
    as (Fa & Ft & _).
  apply delegate_skip.
  - now apply loop_body_bad_hostname.
  - rewrite Fa. exact Ha.
  - unfold work. rewrite Fa, Ft, Ht. simpl. lia.
Qed.

(** Inside a walk: the iteration that meets a target whose URI does not
    parse into a network address makes no child for it and returns
    nothing, the parse error is written to the slot only if the slot is
    empty, the cursor moves to the targets that follow, and the step is
    the step from those targets on. *)
Theorem next_skips_unparsable_uri (env : Env) (e : Enumerator) (c : option GCancellable)
    (x : GSrvTarget) (rest : list GSrvTarget) (h : string) (err : GError) :
  targets (srv env) <> [] ->
  addr_enum e = None -> t e = x :: rest ->
  g_hostname_to_ascii C (hostname x) = Some h ->
  g_network_address_parse_uri C
    (g_uri_from_authority C (g_network_service_get_scheme (srv env)) h (port x)) (port x)
    = inl err ->
  let e1 := record_error (set_t e rest) err in
  loop_body C (srv env) (e, None) = (e1, None)
  /\ addr_enum e1 = None
  /\ t e1 = rest
  /\ error e1 = match error e with Some y => Some y | None => Some err end
  /\ g_network_service_address_enumerator_next C env e c
       = g_network_service_address_enumerator_next C env e1 c.
Proof.
  intros Hr Ha Ht Hh Hp e1.
  destruct (record_error_fields (set_t e rest) err) as (Fa & Ft & _).
  assert (Hb : loop_body C (srv env) (e, None) = (e1, None))
    by now apply (loop_body_bad_uri (srv env) e None x rest h err).
  assert (Ha1 : addr_enum e1 = None) by (unfold e1; rewrite Fa; exact Ha).
  split; [exact Hb |]. split; [exact Ha1 |].
  split; [unfold e1; rewrite Ft; reflexivity |]. split.
  - unfold e1, record_error, set_t; simpl. destruct (error e); reflexivity.
  - rewrite !next_resolved by exact Hr. apply delegate_skip; try assumption.
    unfold work. rewrite Ha1. unfold e1. rewrite Ft, Ht. simpl. lia.
Qed.

(** *** What the active child returns *)

(** An error of the child, whatever its code: it goes to the slot if the
    slot is empty, the child is dropped, and the step goes on from the
    targets not yet taken. *)
Lemma next_child_error (env : Env) (e : Enumerator) (c : option GCancellable)
    (ch ch' : Child) (x : GError) :
  targets (srv env) <> [] ->
  addr_enum e = Some ch ->
  g_socket_address_enumerator_next ch = (Fail x, ch') ->
  g_network_service_address_enumerator_next C env e c
    = g_network_service_address_enumerator_next C env
        (set_addr_enum (record_error e x) None) c.
Proof.
  intros Hr Ha Hp. rewrite !next_resolved by exact Hr.
  destruct (record_error_fields e x) as (Fa & Ft & _).
  apply delegate_skip.
  - rewrite (loop_body_active (srv env) e None ch Ha). unfold pull_child. now rewrite Ha, Hp.
  - reflexivity.
  - unfold work. simpl. rewrite Ft, Ha. lia.
Qed.

(** A child that reports no more addresses is kept: the step returns no
    address, hands over the slot, and leaves the cursor where it was. *)
Lemma next_child_exhausted (env : Env) (e : Enumerator) (c : option GCancellable)
    (ch ch' : Child) :
  targets (srv env) <> [] ->
  addr_enum e = Some ch ->
  g_socket_address_enumerator_next ch = (Exhausted, ch') ->
  g_network_service_address_enumerator_next C env e c
    = (env, set_error (set_addr_enum e (Some ch')) None, (None, error e)).
Proof.
  intros Hr Ha Hp. rewrite next_resolved by exact Hr.
  unfold delegate. rewrite do_while_eq, (loop_body_active (srv env) e None ch Ha).
  unfold pull_child. rewrite Ha, Hp. simpl.
  destruct (error e) eqn:E; [reflexivity |].
  unfold set_error, set_addr_enum; simpl. now rewrite E.
Qed.

(** An address of the child is returned at once; the child stays. *)
Lemma next_child_yield (env : Env) (e : Enumerator) (c : option GCancellable)
    (ch ch' : Child) (a : GSocketAddress) :
  targets (srv env) <> [] ->
  addr_enum e = Some ch ->
  g_socket_address_enumerator_next ch = (Yield a, ch') ->
  g_network_service_address_enumerator_next C env e c
    = (env, set_addr_enum e (Some ch'), (Some a, None)).
Proof.
  intros Hr Ha Hp. rewrite next_resolved by exact Hr.
  unfold delegate. rewrite do_while_eq, (loop_body_active (srv env) e None ch Ha).
  unfold pull_child. rewrite Ha, Hp. reflexivity.
Qed.

(** ** The suspending mode *)

Lemma complete_settles (e e' : Enumerator) fill (s : Scheduled) :
  complete e fill = (e', s) ->
  result e' = None
  /\ addr_enum e' = addr_enum e /\ t e' = t e /\ error e' = error e
  /\ match s with Completed _ | Lost => True | _ => False end.
Proof.
  unfold complete. destruct (result e) eqn:E; intros H; simplify_eq/=; auto.
Qed.

(** A call refused at entry changes nothing: no lookup is started, no
    child is made or pulled, the cancellable and the result stay. *)
Lemma next_async_rejected (env : Env) (e : Enumerator) c cb (simple : GSimpleAsyncResult) :
  result e = Some simple ->
  g_network_service_address_enumerator_next_async C env e c cb = (env, e, Rejected).
Proof.
  intros H. unfold g_network_service_address_enumerator_next_async. now rewrite H.
Qed.

Lemma have_targets_waiting (e e' : Enumerator) (w : InFlight) :
  next_async_have_targets C e = (e', Waiting w) ->
  result e' = result e
  /\ exists r, w = ChildInFlight r /\ 1 + length (t e') <= work e.
Proof.
  destruct e as [ae ts up er ca re].
  unfold next_async_have_targets, complete, work, g_socket_address_enumerator_next,
    set_addr_enum, set_t, set_error; simpl.
  intros H. enum_cases; (split; [reflexivity | eexists; split; [reflexivity | simpl; lia]]).
Qed.

(** While a suspending step waits for a collaborator, the result object
    of the step is outstanding. *)
Lemma next_async_outstanding (env env' : Env) (e e' : Enumerator) c cb (w : InFlight) :
  g_network_service_address_enumerator_next_async C env e c cb = (env', e', Waiting w) ->
  exists simple, result e' = Some simple.
Proof.
  unfold g_network_service_address_enumerator_next_async.
  destruct (result e) eqn:E; [discriminate |].
  destruct (targets (srv env)).
  - simpl. intros H. simplify_eq/=. destruct c; simpl; eauto.
  - destruct (next_async_have_targets C _) as [e3 s] eqn:Hh. intros H. simplify_eq/=.
    apply have_targets_waiting in Hh as [Hr _]. rewrite Hr. destruct c; simpl; eauto.
Qed.

(** In the suspending mode an error of the child is handled as in the
    blocking mode: slot, drop the child, go on with the targets. *)
Lemma have_address_error (e : Enumerator) (x : GError) :
  next_async_have_address C e (Fail x)
    = next_async_have_targets C (set_addr_enum (record_error e x) None).
Proof.
  reflexivity.
Qed.

(** And a child that reports no more addresses is kept there too: the
    step completes with no address, and the slot is not even looked at. *)
Lemma have_address_exhausted (e : Enumerator) (simple : GSimpleAsyncResult) :
  result e = Some simple ->
  next_async_have_address C e Exhausted = (set_result e None, Completed simple)
  /\ addr_enum (set_result e None) = addr_enum e
  /\ t (set_result e None) = t e
  /\ error (set_result e None) = error e.
Proof.
  intros H. simpl. unfold complete. rewrite H. repeat split.
Qed.

(** C7. A suspending step issued while the result of an earlier one is
    still outstanding is refused at entry, before anything is scheduled:
    the service, the resolver and the whole cursor are as they were. *)
Theorem second_next_async_rejected (env : Env) (e : Enumerator)
    (c : option GCancellable) (cb : GAsyncReadyCallback) :
  result e <> None ->
  g_network_service_address_enumerator_next_async C env e c cb = (env, e, Rejected).
Proof.
  intros H. destruct (result e) as [simple |] eqn:E; [| contradiction].
  now apply (next_async_rejected env e c cb simple).
Qed.

Lemma have_address_waiting (e e' : Enumerator) (r : PullResult) (w : InFlight) :
  next_async_have_address C e r = (e', Waiting w) ->
  result e' = result e
  /\ exists r', w = ChildInFlight r' /\ 1 + length (t e') <= length (t e).
Proof.
  destruct r as [a | x |]; simpl; intros H.
  - apply complete_settles in H. tauto.
  - apply have_targets_waiting in H as (Hr & r' & -> & Hw).
    destruct (record_error_fields e x) as (_ & Ft & _ & Fr & _).
    split; [rewrite Hr; exact Fr |]. exists r'. split; [reflexivity |].
    revert Hw. unfold work. simpl. rewrite Ft. lia.
  - apply complete_settles in H. tauto.
Qed.

Lemma main_loop_settled (n : nat) (env : Env) (e : Enumerator) (s : Scheduled) :
  settled s -> main_loop C n env e s = (env, e, s).
Proof.
  destruct s, n; simpl; intros H; try reflexivity; contradiction.
Qed.

(** The fuel given to the main loop is enough: every suspending step
    ends with the caller's callback (or is refused). *)
Lemma main_loop_settles (n : nat) :
  forall env e s, pending_work e s <= n -> settled (snd (main_loop C n env e s)).
Proof.
  induction n as [| n IH]; intros env e s Hp.
  - destruct s as [| [[l | x] | r] | |]; simpl in *; try exact I; lia.
  - destruct s as [| w | |]; simpl; try exact I.
    destruct w as [ans | r]; simpl.
    + destruct ans as [l | x]; simpl.
      * destruct (next_async_have_targets C (set_t e l)) as [e' s'] eqn:Hh.
        apply IH. destruct s' as [| w' | |]; simpl; try lia.
        apply have_targets_waiting in Hh as (_ & r' & -> & Hw).
        revert Hw. unfold work. simpl in *. destruct (addr_enum e); lia.
      * destruct (complete e _) as [e' s'] eqn:Hc.
        apply complete_settles in Hc as (_ & _ & _ & _ & Hs).
        rewrite main_loop_settled; destruct s'; simpl; tauto.
    + destruct (next_async_have_address C e r) as [e' s'] eqn:Hh.
      apply IH. destruct s' as [| w' | |]; simpl; try lia.
      apply have_address_waiting in Hh as (_ & r' & -> & Hw). simpl in *. lia.
Qed.

Lemma next_suspending_settles (env : Env) (e : Enumerator) c cb :
  settled (snd (next_suspending C env e c cb)).
Proof.
  unfold next_suspending.
  destruct (g_network_service_address_enumerator_next_async C env e c cb) as [[env1 e1] s1].
  apply main_loop_settles. lia.
Qed.

(** *** The shared service and resolver *)

Lemma main_loop_child_env (n : nat) :
  forall env e r, fst (fst (main_loop C n env e (Waiting (ChildInFlight r)))) = env.
Proof.
  induction n as [| n IH]; intros env e r; simpl; [reflexivity |].
  destruct (next_async_have_address C e r) as [e' s'] eqn:Hh.
  destruct s' as [| w' | |]; try (rewrite main_loop_settled; [reflexivity | exact I]).
  apply have_address_waiting in Hh as (_ & r' & -> & _). apply IH.
Qed.

Lemma have_targets_env (n : nat) (env : Env) (e e' : Enumerator) (s : Scheduled) :
  next_async_have_targets C e = (e', s) ->
  fst (fst (main_loop C n env e' s)) = env.
Proof.
  intros Hh. destruct s as [| w | |]; try (rewrite main_loop_settled; [reflexivity | exact I]).
  apply have_targets_waiting in Hh as (_ & r & -> & _). apply main_loop_child_env.
Qed.

(** Once the service has targets, a blocking step leaves the service and
    the resolver as they are. *)
Lemma next_resolved_env (env : Env) (e : Enumerator) c :
  targets (srv env) <> [] ->
  fst (fst (g_network_service_address_enumerator_next C env e c)) = env.
Proof.
  intros H. rewrite next_resolved by exact H. apply delegate_keeps_env.
Qed.

(** And so does a suspending step. *)
Lemma next_suspending_resolved_env (env : Env) (e : Enumerator) c cb :
  targets (srv env) <> [] ->
  fst (fst (next_suspending C env e c cb)) = env.
Proof.
  intros H. unfold next_suspending, g_network_service_address_enumerator_next_async.
  destruct (result e); [reflexivity |].
  destruct (targets (srv env)); [contradiction |].
  destruct (next_async_have_targets C _) as [e3 s] eqn:Hh.
  exact (have_targets_env _ env _ _ _ Hh).
Qed.

Lemma set_targets_same (srv : GNetworkService) : set_targets srv (targets srv) = srv.
Proof.
  destruct srv; reflexivity.
Qed.

(** A blocking step on a service without targets makes one lookup and
    stores what it answered. *)
Lemma next_unresolved_env (env : Env) (e : Enumerator) c :
  targets (srv env) = [] ->
  fst (fst (g_network_service_address_enumerator_next C env e c))
    = mkEnv (set_targets (srv env) (answered (next_answer env)))
            (mkResolver (answers (resolver env)) (S (calls (resolver env)))).
Proof.
  intros H. unfold g_network_service_address_enumerator_next, next_answer. rewrite H. simpl.
  destruct (answers _ _ _ _ _) as [[| x l] | x]; simpl.
  - now rewrite <- H, set_targets_same.
  - apply delegate_keeps_env.
  - now rewrite <- H, set_targets_same.
Qed.

Lemma main_loop_step (n : nat) (env : Env) (e : Enumerator) (w : InFlight) :
  main_loop C (S n) env e (Waiting w)
    = let '(env', e', s') := dispatch C env e w in main_loop C n env' e' s'.
Proof.
  reflexivity.
Qed.

(** The whole suspending step on a service without targets: one lookup,
    then the callback that receives its answer. *)
Lemma next_suspending_unresolved (env : Env) (e : Enumerator) c cb :
  targets (srv env) = [] -> result e = None ->
  let e2 :=
    match c with
    | Some c' => set_cancellable (set_result e (Some (mkSimple cb None None))) (Some c')
    | None => set_result e (Some (mkSimple cb None None))
    end in
  let env1 := mkEnv (srv env) (mkResolver (answers (resolver env)) (S (calls (resolver env)))) in
  next_suspending C env e c cb
    = let '(env', e', s') := next_async_resolved_targets C env1 e2 (next_answer env) in
      main_loop C (pending_work e2 (Waiting (LookupInFlight (next_answer env))) - 1) env' e' s'.
Proof.
  intros H Hr e2 env1.
  unfold next_suspending, g_network_service_address_enumerator_next_async.
  rewrite H, Hr. unfold g_resolver_lookup_service. fold e2. fold env1. fold (next_answer env).
  destruct (next_answer env) as [l | x]; reflexivity.
Qed.

(** So a suspending step that is not refused stores the answer too. *)
Lemma next_suspending_unresolved_env (env : Env) (e : Enumerator) c cb :
  targets (srv env) = [] -> result e = None ->
  fst (fst (next_suspending C env e c cb))
    = mkEnv (set_targets (srv env) (answered (next_answer env)))
            (mkResolver (answers (resolver env)) (S (calls (resolver env)))).
Proof.
  intros H Hr. rewrite next_suspending_unresolved by assumption.
  unfold next_async_resolved_targets.
  destruct (next_answer env) as [l | x].
  - destruct (next_async_have_targets C _) as [e' s'] eqn:Hh.
    exact (have_targets_env _ _ _ _ _ Hh).
  - destruct (complete _ _) as [e' s'] eqn:Hc.
    apply complete_settles in Hc as (_ & _ & _ & _ & Hs).
    rewrite main_loop_settled; [reflexivity | destruct s'; simpl; tauto].
Qed.

(** *** The result object *)

(** The blocking mode never touches the result object. *)
Lemma loop_body_result (srv : GNetworkService) (e : Enumerator) ret :
  result (fst (loop_body C srv (e, ret))) = result e.
Proof.
  destruct e as [ae ts up er ca re].
  unfold loop_body, expand_target, pull_child, record_error,
    g_socket_address_enumerator_next, set_t, set_addr_enum, set_error; simpl.
  enum_cases; reflexivity.
Qed.

Lemma do_while_result (srv : GNetworkService) (n : nat) :
  forall st, result (fst (do_while C n srv st)) = result (fst st).
Proof.
  induction n as [| n IH]; intros [e ret]; rewrite do_while_eq;
    destruct (loop_cond _); try rewrite IH; apply loop_body_result.
Qed.

Lemma next_result (env : Env) (e : Enumerator) c :
  result (snd (fst (g_network_service_address_enumerator_next C env e c))) = result e.
Proof.
  assert (D : forall env e, result (snd (fst (delegate C env e))) = result e).
  { intros env0 e0. unfold delegate.
    pose proof (do_while_result (srv env0) (length (t e0)) (e0, None)) as H.
    destruct (do_while _ _ _ _) as [e' ret]. simpl in H.
    destruct ret; [exact H |]. destruct (error e'); exact H. }
  unfold g_network_service_address_enumerator_next.
  destruct (targets (srv env)); [| apply D]. simpl.
  destruct (answers _ _ _ _ _) as [[| x l] | x]; try reflexivity. now rewrite D.
Qed.

Lemma complete_quiescent (e e' : Enumerator) fill (s : Scheduled) :
  complete e fill = (e', s) -> quiescent e' s.
Proof.
  intros H. apply complete_settles in H as (Hr & _ & _ & _ & Hs).
  destruct s; simpl in *; tauto.
Qed.

Lemma have_targets_quiescent (e e' : Enumerator) (s : Scheduled) :
  next_async_have_targets C e = (e', s) -> quiescent e' s.
Proof.
  unfold next_async_have_targets.
  destruct (addr_enum _) as [ch |].
  - destruct (g_socket_address_enumerator_next ch). intros H. simplify_eq. exact I.
  - destruct (error _); apply complete_quiescent.
Qed.

Lemma dispatch_quiescent (env env' : Env) (e e' : Enumerator) (w : InFlight) (s : Scheduled) :
  dispatch C env e w = (env', e', s) -> quiescent e' s.
Proof.
  destruct w as [[l | x] | [a | x |]]; simpl.
  - destruct (next_async_have_targets C _) as [e1 s1] eqn:Hh. intros H. simplify_eq.
    now apply have_targets_quiescent in Hh.
  - destruct (complete _ _) as [e1 s1] eqn:Hc. intros H. simplify_eq.
    now apply complete_quiescent in Hc.
  - destruct (complete _ _) as [e1 s1] eqn:Hc. intros H. simplify_eq.
    now apply complete_quiescent in Hc.
  - destruct (next_async_have_targets C _) as [e1 s1] eqn:Hh. intros H. simplify_eq.
    now apply have_targets_quiescent in Hh.
  - destruct (complete _ _) as [e1 s1] eqn:Hc. intros H. simplify_eq.
    now apply complete_quiescent in Hc.
Qed.

Lemma main_loop_quiescent (n : nat) :
  forall env e s, quiescent e s ->
    quiescent (snd (fst (main_loop C n env e s))) (snd (main_loop C n env e s)).
Proof.
  induction n as [| n IH]; intros env e s Hq.
  - destruct s; exact Hq.
  - destruct s as [| w | |]; try exact Hq. rewrite main_loop_step.
    destruct (dispatch C env e w) as [[env' e'] s'] eqn:Hd.
    apply IH. now apply dispatch_quiescent in Hd.
Qed.

Lemma next_async_quiescent (env env' : Env) (e e' : Enumerator) c cb (s : Scheduled) :
  result e = None ->
  g_network_service_address_enumerator_next_async C env e c cb = (env', e', s) ->
  quiescent e' s.
Proof.
  intros Hr. unfold g_network_service_address_enumerator_next_async. rewrite Hr.
  destruct (targets (srv env)).
  - simpl. intros H. simplify_eq. exact I.
  - destruct (next_async_have_targets C _) as [e3 s3] eqn:Hh. intros H. simplify_eq.
    now apply have_targets_quiescent in Hh.
Qed.

(** A suspending step that is not refused ends with the caller's
    callback run and no result object outstanding. *)
Lemma next_suspending_done (env : Env) (e : Enumerator) c cb :
  result e = None ->
  result (snd (fst (next_suspending C env e c cb))) = None.
Proof.
  intros Hr. pose proof (next_suspending_settles env e c cb) as Hs. revert Hs.
  unfold next_suspending.
  destruct (g_network_service_address_enumerator_next_async C env e c cb)
    as [[env1 e1] s1] eqn:Ha.
  pose proof (main_loop_quiescent (pending_work e1 s1) env1 e1 s1
                (next_async_quiescent _ _ _ _ _ _ _ Hr Ha)) as Hq.
  destruct (main_loop C _ env1 e1 s1) as [[env2 e2] s2]. simpl in *.
  destruct s2; simpl in *; intros; tauto.
Qed.

(** *** A lookup that leaves no targets *)

Lemma next_no_targets (env : Env) (e : Enumerator) c :
  targets (srv env) = [] -> answered (next_answer env) = [] ->
  snd (fst (g_network_service_address_enumerator_next C env e c)) = e
  /\ snd (g_network_service_address_enumerator_next C env e c)
       = no_targets_outcome (next_answer env).
Proof.
  unfold g_network_service_address_enumerator_next, next_answer. intros H Ha. rewrite H. simpl.
  destruct (answers _ _ _ _ _) as [[| x l] | x]; simpl in *; try discriminate; split; reflexivity.
Qed.

Lemma next_suspending_no_targets (env : Env) (e : Enumerator) c cb :
  targets (srv env) = [] -> result e = None ->
  addr_enum e = None -> error e = None ->
  answered (next_answer env) = [] ->
  addr_enum (snd (fst (next_suspending C env e c cb))) = None
  /\ error (snd (fst (next_suspending C env e c cb))) = None
  /\ delivered (snd (next_suspending C env e c cb))
       = Some (no_targets_outcome (next_answer env)).
Proof.
  intros H Hr Hc He Ha. rewrite next_suspending_unresolved by assumption.
  destruct (next_answer env) as [l | x]; simpl in Ha; subst;
    destruct e as [ae ts up er ca re]; simpl in *; subst; destruct c; repeat split.
Qed.

End EnumerationFacts.

Section SystemFacts.

Context (C : Collaborators).

(** ** Enumerators sharing a service *)

Lemma sys_step_next (sys : System) (i : nat) (e : Enumerator) c :
  enums sys !! i = Some e ->
  sys_step C sys (Next i c)
    = (mkSystem (fst (fst (g_network_service_address_enumerator_next C (env sys) e c)))
                (<[i := snd (fst (g_network_service_address_enumerator_next C (env sys) e c))]>
                   (enums sys)),
       Some (snd (g_network_service_address_enumerator_next C (env sys) e c))).
Proof.
  intros H. unfold sys_step. rewrite H.
  destruct (g_network_service_address_enumerator_next C (env sys) e c) as [[env' e'] r].
  reflexivity.
Qed.

Lemma sys_step_next_suspending (sys : System) (i : nat) (e : Enumerator) c cb :
  enums sys !! i = Some e ->
  sys_step C sys (NextSuspending i c cb)
    = (mkSystem (fst (fst (next_suspending C (env sys) e c cb)))
                (<[i := snd (fst (next_suspending C (env sys) e c cb))]> (enums sys)),
       delivered (snd (next_suspending C (env sys) e c cb))).
Proof.
  intros H. unfold sys_step. rewrite H.
  destruct (next_suspending C (env sys) e c cb) as [[env' e'] s].
  reflexivity.
Qed.

(** Once the service has targets, no action of any enumerator calls the
    resolver or changes the targets. *)
Lemma sys_step_resolved (sys : System) (a : Action) :
  targets (srv (env sys)) <> [] ->
  resolver (env (fst (sys_step C sys a))) = resolver (env sys)
  /\ targets (srv (env (fst (sys_step C sys a)))) = targets (srv (env sys)).
Proof.
  intros H. destruct a as [| | s | i c | i c cb]; try (split; reflexivity).
  - destruct (enums sys !! i) as [e |] eqn:E.
    + rewrite (sys_step_next sys i e c E). simpl.
      now rewrite next_resolved_env.
    + unfold sys_step. rewrite E. split; reflexivity.
  - destruct (enums sys !! i) as [e |] eqn:E.
    + rewrite (sys_step_next_suspending sys i e c cb E). simpl.
      now rewrite next_suspending_resolved_env.
    + unfold sys_step. rewrite E. split; reflexivity.
Qed.

Lemma run_resolved (acts : list Action) :
  forall sys, targets (srv (env sys)) <> [] ->
    resolver (env (run C sys acts)) = resolver (env sys)
    /\ targets (srv (env (run C sys acts))) = targets (srv (env sys)).
Proof.
  induction acts as [| a acts IH]; intros sys H; simpl; [split; reflexivity |].
  destruct (sys_step_resolved sys a H) as [Hr Ht].
  destruct (IH (fst (sys_step C sys a))) as [Hr' Ht']; [now rewrite Ht |].
  split; congruence.
Qed.

(** C3, as the code has it.  When a step of some enumerator, blocking or
    suspending, looks the service up and the resolver answers with at
    least one target, the answer is stored in the service, and from then
    on no action of any enumerator of the service calls the resolver
    again or changes the stored list. *)
Theorem targets_resolved_once (sys : System) (i : nat) (e : Enumerator)
    (c : option GCancellable) (cb : GAsyncReadyCallback) (a : Action)
    (x : GSrvTarget) (l : list GSrvTarget) (acts : list Action) :
  enums sys !! i = Some e ->
  targets (srv (env sys)) = [] ->
  next_answer (env sys) = LookupOk (x :: l) ->
  a = Next i c \/ (a = NextSuspending i c cb /\ result e = None) ->
  let sys1 := fst (sys_step C sys a) in
  let sys2 := run C sys1 acts in
  calls (resolver (env sys1)) = S (calls (resolver (env sys)))
  /\ targets (srv (env sys1)) = x :: l
  /\ calls (resolver (env sys2)) = S (calls (resolver (env sys)))
  /\ targets (srv (env sys2)) = x :: l.
Proof.
  intros Hi Ht Ha Hact sys1 sys2.
  assert (H1 : env sys1
               = mkEnv (set_targets (srv (env sys)) (x :: l))
                       (mkResolver (answers (resolver (env sys)))
                                   (S (calls (resolver (env sys)))))).
  { unfold sys1. destruct Hact as [-> | [-> Hr]].
    - rewrite (sys_step_next sys i e c Hi). simpl.
      rewrite next_unresolved_env by exact Ht. now rewrite Ha.
    - rewrite (sys_step_next_suspending sys i e c cb Hi). simpl.
      rewrite next_suspending_unresolved_env by assumption. now rewrite Ha. }
  assert (Hne : targets (srv (env sys1)) <> []) by (rewrite H1; discriminate).
  destruct (run_resolved acts sys1 Hne) as [Hr2 Ht2]. fold sys2 in Hr2, Ht2.
  rewrite Hr2, Ht2, H1. repeat split.
Qed.

(** *** Cursors of a service without targets *)

Lemma next_targets_empty (env : Env) (e : Enumerator) c :
  targets (srv (fst (fst (g_network_service_address_enumerator_next C env e c)))) = [] ->
  targets (srv env) = [] /\ answered (next_answer env) = [].
Proof.
  destruct (targets (srv env)) as [| y l] eqn:E.
  - rewrite next_unresolved_env by exact E. simpl. auto.
  - rewrite next_resolved_env by (rewrite E; discriminate). rewrite E. discriminate.
Qed.

Lemma next_suspending_targets_empty (env : Env) (e : Enumerator) c cb :
  result e = None ->
  targets (srv (fst (fst (next_suspending C env e c cb)))) = [] ->
  targets (srv env) = [] /\ answered (next_answer env) = [].
Proof.
  intros Hr. destruct (targets (srv env)) as [| y l] eqn:E.
  - rewrite next_suspending_unresolved_env by assumption. simpl. auto.
  - rewrite next_suspending_resolved_env by (rewrite E; discriminate). rewrite E. discriminate.
Qed.

Lemma cursor_ok_weaken (srv srv' : GNetworkService) (e : Enumerator) :
  (targets srv' = [] -> targets srv = []) -> cursor_ok srv e -> cursor_ok srv' e.
Proof.
  intros Hm [Hr Hc]. split; auto.
Qed.

Lemma sys_step_coherent (sys : System) (a : Action) :
  coherent sys -> coherent (fst (sys_step C sys a)).
Proof.
  unfold coherent. intros H. destruct a as [| | s | i c | i c cb]; simpl.
  - apply Forall_app_2; [exact H |]. apply Forall_singleton. split; auto.
  - apply Forall_app_2; [exact H |]. apply Forall_singleton. split; auto.
  - exact H.
  - destruct (enums sys !! i) as [e |] eqn:E; [| exact H].
    pose proof (Forall_lookup_1 _ _ _ _ H E) as [Hr Hc].
    pose proof (next_result C (env sys) e c) as Hres.
    pose proof (next_targets_empty (env sys) e c) as Hemp.
    destruct (g_network_service_address_enumerator_next C (env sys) e c)
      as [[env' e'] r] eqn:Hn. simpl in *.
    apply Forall_insert.
    + apply (Forall_impl _ _ _ H). intros e2. apply cursor_ok_weaken. tauto.
    + split; [congruence |]. intros Ht. destruct (Hemp Ht) as [Ht0 Ha].
      destruct (next_no_targets C (env sys) e c Ht0 Ha) as [He _].
      rewrite Hn in He. simpl in He. subst e'. auto.
  - destruct (enums sys !! i) as [e |] eqn:E; [| exact H].
    pose proof (Forall_lookup_1 _ _ _ _ H E) as [Hr Hc].
    pose proof (next_suspending_done C (env sys) e c cb Hr) as Hres.
    pose proof (next_suspending_targets_empty (env sys) e c cb Hr) as Hemp.
    pose proof (next_suspending_no_targets C (env sys) e c cb) as Hno.
    destruct (next_suspending C (env sys) e c cb) as [[env' e'] r] eqn:Hn. simpl in *.
    apply Forall_insert.
    + apply (Forall_impl _ _ _ H). intros e2. apply cursor_ok_weaken. tauto.
    + split; [exact Hres |]. intros Ht. destruct (Hemp Ht) as [Ht0 Ha].
      destruct (Hc Ht0) as [Hc1 Hc2].
      destruct (Hno Ht0 Hr Hc1 Hc2 Ha) as (? & ? & _). auto.
Qed.

Lemma run_coherent (acts : list Action) :
  forall sys, coherent sys -> coherent (run C sys acts).
Proof.
  induction acts as [| a acts IH]; intros sys H; simpl; [exact H |].
  apply IH. now apply sys_step_coherent.
Qed.

Lemma initial_coherent (s p d : string) ans : coherent (initial s p d ans).
Proof.
  apply Forall_nil_2.
Qed.

(** C5. Take any state the service and its enumerators can reach and any
    of the enumerators.  If the step has to look the service up and the
    resolver answers successfully with no target, the step signals the
    end of the sequence with no error, in the blocking mode and in the
    suspending mode alike. *)
Theorem zero_targets_signal_empty (s p d : string)
    (ans : nat -> string -> string -> string -> LookupResult) (acts : list Action)
    (i : nat) (e : Enumerator) (c : option GCancellable) (cb : GAsyncReadyCallback) :
  let sys := run C (initial s p d ans) acts in
  enums sys !! i = Some e ->
  targets (srv (env sys)) = [] ->
  next_answer (env sys) = LookupOk [] ->
  snd (sys_step C sys (Next i c)) = Some (None, None)
  /\ snd (sys_step C sys (NextSuspending i c cb)) = Some (None, None).
Proof.
  intros sys Hi Ht Ha.
  pose proof (run_coherent acts _ (initial_coherent s p d ans)) as Hco. fold sys in Hco.
  destruct (Forall_lookup_1 _ _ _ _ Hco Hi) as [Hr Hc]. destruct (Hc Ht) as [Hc1 Hc2].
  assert (Hans : answered (next_answer (env sys)) = []) by now rewrite Ha.
  split.
  - rewrite (sys_step_next sys i e c Hi). simpl.
    destruct (next_no_targets C (env sys) e c Ht Hans) as [_ ->]. now rewrite Ha.
  - rewrite (sys_step_next_suspending sys i e c cb Hi). simpl.
    destruct (next_suspending_no_targets C (env sys) e c cb Ht Hr Hc1 Hc2 Hans) as (_ & _ & ->).
    now rewrite Ha.
Qed.

End SystemFacts.

(** ** The enumerator on concrete services *)

Module Scenarios.

Import Demo.

(** C2. The service of the running example resolves to [ldap1] (two
    addresses) and [ldap2] (one address).  Both modes return the two
    addresses of [ldap1] and then signal the end of the sequence, again
    and again: the exhausted child of [ldap1] is kept, the cursor stays
    on [ldap2], and [ldap2] is never expanded. *)
Theorem exhausted_child_ends_walk :
  outputs collaborators (direct [ldap1; ldap2]) (blocking 4)
    = [Some (Some "10.0.0.1:389", None); Some (Some "10.0.0.2:389", None);
       Some (None, None); Some (None, None)]
  /\ enums (run collaborators (direct [ldap1; ldap2]) (blocking 4))
       = [mkEnum (Some []) [ldap2] false None None None]
  /\ outputs collaborators (direct [ldap1; ldap2]) (suspending 4)
       = [Some (Some "10.0.0.1:389", None); Some (Some "10.0.0.2:389", None);
          Some (None, None); Some (None, None)]
  /\ enums (run collaborators (direct [ldap1; ldap2]) (suspending 4))
       = [mkEnum (Some []) [ldap2] false None None None].
Proof.
  repeat split; vm_compute; reflexivity.
Qed.

(** C4. Targets [down] (its child fails), [ldap2] (one address) and
    [ldap3].  In the blocking mode the error of [down] is handed over at
    the second step, when the child of [ldap2] is still there and
    [ldap3] has not been tried; in the suspending mode it is never handed
    over and stays in the slot. *)
Theorem error_surfaced_before_walk_ends :
  outputs collaborators (direct [down; ldap2; ldap3]) (blocking 3)
    = [Some (Some "10.0.1.1:389", None); Some (None, Some unreachable); Some (None, None)]
  /\ enums (run collaborators (direct [down; ldap2; ldap3]) (blocking 2))
       = [mkEnum (Some []) [ldap3] false None None None]
  /\ outputs collaborators (direct [down; ldap2; ldap3]) (suspending 3)
       = [Some (Some "10.0.1.1:389", None); Some (None, None); Some (None, None)]
  /\ enums (run collaborators (direct [down; ldap2; ldap3]) (suspending 3))
       = [mkEnum (Some []) [ldap3] false (Some unreachable) None None].
Proof.
  repeat split; vm_compute; reflexivity.
Qed.

(** C6. Targets [slow] (the pull on its child is cancelled), [ldap2] and
    [ldap3].  The cancellation goes to the slot and the same step returns
    the address of [ldap2]; but once the child of [ldap2] is exhausted
    the sequence ends, and [ldap3] is left on the cursor, never tried. *)
Theorem cancelled_then_walk_stops :
  outputs collaborators (direct [slow; ldap2; ldap3]) (blocking 3)
    = [Some (Some "10.0.1.1:389", None); Some (None, Some cancelled); Some (None, None)]
  /\ enums (run collaborators (direct [slow; ldap2; ldap3]) (blocking 1))
       = [mkEnum (Some []) [ldap3] false (Some cancelled) None None]
  /\ enums (run collaborators (direct [slow; ldap2; ldap3]) (blocking 3))
       = [mkEnum (Some []) [ldap3] false None None None]
  /\ outputs collaborators (direct [slow; ldap2; ldap3]) (suspending 3)
       = [Some (Some "10.0.1.1:389", None); Some (None, None); Some (None, None)]
  /\ enums (run collaborators (direct [slow; ldap2; ldap3]) (suspending 3))
       = [mkEnum (Some []) [ldap3] false (Some cancelled) None None].
Proof.
  repeat split; vm_compute; reflexivity.
Qed.

(** C1. The two modes disagree.  A hostname that does not normalise is
    refused by the blocking mode, while the suspending mode hands it raw
    to [g_network_address_new] and reports what that child reports.  A
    proxy-aware enumerator builds its child from the URI with the scheme
    in the blocking mode and from host and port alone in the suspending
    mode.  And with an error recorded, the step on an exhausted child
    hands the error over in the blocking mode only. *)
Theorem modes_disagree :
  outputs collaborators (direct [garbled]) (blocking 1)
    = [Some (None, Some (invalid_hostname_error "not a hostname"))]
  /\ outputs collaborators (direct [garbled]) (suspending 1)
       = [Some (None, Some (not_found "not a hostname"))]
  /\ outputs collaborators (proxied [ldap1]) (blocking 1)
       = [Some (Some "proxy.ldap.example.com:3128", None)]
  /\ outputs collaborators (proxied [ldap1]) (suspending 1)
       = [Some (Some "proxy.none.example.com:3128", None)]
  /\ outputs collaborators (direct [down; ldap2]) (blocking 2)
       = [Some (Some "10.0.1.1:389", None); Some (None, Some unreachable)]
  /\ outputs collaborators (direct [down; ldap2]) (suspending 2)
       = [Some (Some "10.0.1.1:389", None); Some (None, None)].
Proof.
  repeat split; vm_compute; reflexivity.
Qed.

(** C3, counterexample: the resolver answers successfully with no
    target; the first step completes with the end of the sequence and no
    error, and the second step of the same enumerator looks the service
    up again, in either mode. *)
Lemma zero_targets_looked_up_again :
  next_answer (env (direct [])) = LookupOk []
  /\ outputs collaborators (direct []) (blocking 2) = [Some (None, None); Some (None, None)]
  /\ calls (resolver (env (run collaborators (direct []) (blocking 1)))) = 1
  /\ calls (resolver (env (run collaborators (direct []) (blocking 2)))) = 2
  /\ outputs collaborators (direct []) (suspending 2) = [Some (None, None); Some (None, None)]
  /\ calls (resolver (env (run collaborators (direct []) (suspending 1)))) = 1
  /\ calls (resolver (env (run collaborators (direct []) (suspending 2)))) = 2.
Proof.
  repeat split; vm_compute; reflexivity.
Qed.

(** Witness of [targets_resolved_once]: the first enumerator resolves the
    service; later steps of both enumerators, a change of scheme and a
    third enumerator leave the resolver at one call. *)
Lemma targets_resolved_once_witness :
  enums pair !! 0 = Some (cursor [])
  /\ targets (srv (env pair)) = []
  /\ next_answer (env pair) = LookupOk [ldap1; ldap2]
  /\ (Next 0 None = Next 0 None
      \/ (Next 0 None = NextSuspending 0 None 7 /\ result (cursor []) = None))
  /\ calls (resolver (env (fst (sys_step collaborators pair (Next 0 None))))) = 1
  /\ targets (srv (env (fst (sys_step collaborators pair (Next 0 None))))) = [ldap1; ldap2]
  /\ calls (resolver (env (run collaborators (fst (sys_step collaborators pair (Next 0 None)))
                              [Next 0 None; Next 1 None; NextSuspending 1 None 7;
                               SetScheme (Some "ldaps"); Enumerate; Next 2 None]))) = 1
  /\ targets (srv (env (run collaborators (fst (sys_step collaborators pair (Next 0 None)))
                              [Next 0 None; Next 1 None; NextSuspending 1 None 7;
                               SetScheme (Some "ldaps"); Enumerate; Next 2 None])))
       = [ldap1; ldap2].
Proof.
  assert (H1 : enums pair !! 0 = Some (cursor [])) by reflexivity.
  assert (H2 : targets (srv (env pair)) = []) by reflexivity.
  assert (H3 : next_answer (env pair) = LookupOk [ldap1; ldap2]) by reflexivity.
  assert (H4 : Next 0 None = Next 0 None
               \/ (Next 0 None = NextSuspending 0 None 7 /\ result (cursor []) = None))
    by (left; reflexivity).
  split; [exact H1 |]. split; [exact H2 |]. split; [exact H3 |]. split; [exact H4 |].
  exact (targets_resolved_once collaborators pair 0 (cursor []) None 7 (Next 0 None)
           ldap1 [ldap2]
           [Next 0 None; Next 1 None; NextSuspending 1 None 7;
            SetScheme (Some "ldaps"); Enumerate; Next 2 None]
           H1 H2 H3 H4).
Defined.

(** Witness of [zero_targets_signal_empty]. *)
Lemma zero_targets_signal_empty_witness :
  enums (run collaborators (initial "ldap" "tcp" "example.com" (always (LookupOk [])))
           [Enumerate; Next 0 None]) !! 0 = Some (cursor [])
  /\ targets (srv (env (run collaborators
                          (initial "ldap" "tcp" "example.com" (always (LookupOk [])))
                          [Enumerate; Next 0 None]))) = []
  /\ next_answer (env (run collaborators
                         (initial "ldap" "tcp" "example.com" (always (LookupOk [])))
                         [Enumerate; Next 0 None])) = LookupOk []
  /\ snd (sys_step collaborators
            (run collaborators (initial "ldap" "tcp" "example.com" (always (LookupOk [])))
               [Enumerate; Next 0 None]) (Next 0 None)) = Some (None, None)
  /\ snd (sys_step collaborators
            (run collaborators (initial "ldap" "tcp" "example.com" (always (LookupOk [])))
               [Enumerate; Next 0 None]) (NextSuspending 0 None 7)) = Some (None, None).
Proof.
  split; [reflexivity |]. split; [reflexivity |]. split; [reflexivity |].
  apply (zero_targets_signal_empty collaborators "ldap" "tcp" "example.com"
           (always (LookupOk [])) [Enumerate; Next 0 None] 0 (cursor []) None 7);
    reflexivity.
Defined.

(** A first suspending step on an unresolved service starts the lookup
    and waits, with its result object outstanding. *)
Example first_next_async_waits :
  g_network_service_address_enumerator_next_async collaborators
    (mkEnv (g_network_service_new "ldap" "tcp" "example.com")
           (mkResolver (always (LookupOk [ldap1])) 0))
    (cursor []) None 7
    = (looked_up, waiting_cursor, Waiting (LookupInFlight (LookupOk [ldap1]))).
Proof.
  reflexivity.
Qed.

(** Witness of [second_next_async_rejected]: a second call while the
    first one waits. *)
Lemma second_next_async_rejected_witness :
  result waiting_cursor <> None
  /\ g_network_service_address_enumerator_next_async collaborators looked_up waiting_cursor
       (Some 3) 8
     = (looked_up, waiting_cursor, Rejected).
Proof.
  assert (H : result waiting_cursor <> None) by discriminate.
  split; [exact H |].
  exact (second_next_async_rejected collaborators looked_up waiting_cursor (Some 3) 8 H).
Defined.

(** The same on a cursor whose first target has an empty hostname: its
    URI has no host. *)
Lemma next_skips_unparsable_uri_witness :
  targets (srv (resolved [hostless; ldap2])) <> []
  /\ addr_enum (cursor [hostless; ldap2]) = None
  /\ t (cursor [hostless; ldap2]) = hostless :: [ldap2]
  /\ g_hostname_to_ascii collaborators (hostname hostless) = Some ""
  /\ g_network_address_parse_uri collaborators
       (g_uri_from_authority collaborators
          (g_network_service_get_scheme (srv (resolved [hostless; ldap2]))) "" (port hostless))
       (port hostless) = inl (parse_error "ldap://:389")
  /\ loop_body collaborators (srv (resolved [hostless; ldap2]))
       (cursor [hostless; ldap2], None)
     = (record_error (set_t (cursor [hostless; ldap2]) [ldap2]) (parse_error "ldap://:389"),
        None)
  /\ g_network_service_address_enumerator_next collaborators (resolved [hostless; ldap2])
       (cursor [hostless; ldap2]) None
     = g_network_service_address_enumerator_next collaborators (resolved [hostless; ldap2])
         (record_error (set_t (cursor [hostless; ldap2]) [ldap2]) (parse_error "ldap://:389"))
         None.
Proof.
  assert (H1 : targets (srv (resolved [hostless; ldap2])) <> []) by discriminate.
  assert (H2 : addr_enum (cursor [hostless; ldap2]) = None) by reflexivity.
  assert (H3 : t (cursor [hostless; ldap2]) = hostless :: [ldap2]) by reflexivity.
  assert (H4 : g_hostname_to_ascii collaborators (hostname hostless) = Some "") by reflexivity.
  assert (H5 : g_network_address_parse_uri collaborators
                 (g_uri_from_authority collaborators
                    (g_network_service_get_scheme (srv (resolved [hostless; ldap2]))) ""
                    (port hostless))
                 (port hostless) = inl (parse_error "ldap://:389")) by reflexivity.
  split; [exact H1 |]. split; [exact H2 |]. split; [exact H3 |].
  split; [exact H4 |]. split; [exact H5 |].
  pose proof (next_skips_unparsable_uri collaborators (resolved [hostless; ldap2])
                (cursor [hostless; ldap2]) None hostless [ldap2] ""
                (parse_error "ldap://:389") H1 H2 H3 H4 H5) as (Hb & _ & _ & _ & Hn).
  split; [exact Hb | exact Hn].
Defined.

End Scenarios.

(** * Further properties of the code *)

Section WalkFacts.

Context (C : Collaborators).

(** ** The blocking step as a walk *)

Lemma record_error_is_first_write (e : Enumerator) (x : GError) :
  record_error e x = set_error e (first_write (error e) x).
Proof.
  destruct e as [ae ts up er ca re]. unfold record_error, set_error; simpl.
  destruct er; reflexivity.
Qed.

Lemma loop_body_refused (srv : GNetworkService) (e : Enumerator) ret x rest err :
  addr_enum e = None -> t e = x :: rest ->
  blocking_child C srv (use_proxy e) x = inl err ->
  loop_body C srv (e, ret) = (record_error (set_t e rest) err, ret).
Proof.
  intros Ha Ht. unfold blocking_child, loop_body, expand_target. rewrite Ha, Ht.
  destruct (g_hostname_to_ascii C (hostname x)) as [h |]; simpl.
  - destruct (g_network_address_parse_uri C _ _) as [err' | addr]; intros H; simplify_eq.
    reflexivity.
  - intros H. simplify_eq. reflexivity.
Qed.

Lemma loop_body_expanded (srv : GNetworkService) (e : Enumerator) ret x rest c :
  addr_enum e = None -> t e = x :: rest ->
  blocking_child C srv (use_proxy e) x = inr c ->
  loop_body C srv (e, ret) = pull_child (set_addr_enum (set_t e rest) (Some c)) ret.
Proof.
  intros Ha Ht. unfold blocking_child, loop_body, expand_target. rewrite Ha, Ht.
  destruct (g_hostname_to_ascii C (hostname x)) as [h |]; simpl; [| discriminate].
  destruct (g_network_address_parse_uri C _ _) as [err' | addr]; intros H; simplify_eq.
  reflexivity.
Qed.

(** The end of a blocking step depends on the cursor it started from
    only through the fields the walk does not touch. *)
Lemma blocking_after_fields (e e' : Enumerator) (w : Walk) :
  use_proxy e' = use_proxy e -> cancellable e' = cancellable e -> result e' = result e ->
  blocking_after e' w = blocking_after e w.
Proof.
  intros H1 H2 H3. unfold blocking_after. now rewrite H1, H2, H3.
Qed.

(** A pull on the child the iteration works with, given what the walk
    does when the pull fails. *)
Lemma delegate_pull (env : Env) (e e2 : Enumerator) (c : Child)
    (child_of : GSrvTarget -> GError + Child) :
  loop_body C (srv env) (e, None) = pull_child e2 None ->
  addr_enum e2 = Some c ->
  length (t e2) <= length (t e) ->
  (forall err,
      delegate C env (set_addr_enum (record_error e2 err) None)
        = (env, fst (blocking_after e2 (walk child_of (t e2) (first_write (error e2) err))),
           snd (blocking_after e2 (walk child_of (t e2) (first_write (error e2) err))))) ->
  delegate C env e
    = (env, fst (blocking_after e2 (pulled c (t e2) (error e2) (walk child_of (t e2)))),
       snd (blocking_after e2 (pulled c (t e2) (error e2) (walk child_of (t e2))))).
Proof.
  intros Hb Ha Hl Hk. unfold pulled.
  destruct (g_socket_address_enumerator_next c) as [[a | err |] c'] eqn:Hp.
  - unfold delegate. rewrite do_while_eq, Hb. unfold pull_child. rewrite Ha, Hp. simpl.
    unfold blocking_after; simpl. reflexivity.
  - rewrite <- Hk. apply delegate_skip.
    + rewrite Hb. unfold pull_child. now rewrite Ha, Hp.
    + reflexivity.
    + destruct (record_error_fields e2 err) as (_ & Ft & _).
      unfold work. simpl. rewrite Ft. destruct (addr_enum e); lia.
  - unfold delegate. rewrite do_while_eq, Hb. unfold pull_child. rewrite Ha, Hp. simpl.
    unfold blocking_after, set_error, set_addr_enum; simpl. destruct (error e2); reflexivity.
Qed.

Lemma delegate_walk (env : Env) (ts : list GSrvTarget) :
  forall e, addr_enum e = None -> t e = ts ->
    delegate C env e
      = (env,
         fst (blocking_after e (walk (blocking_child C (srv env) (use_proxy e)) ts (error e))),
         snd (blocking_after e (walk (blocking_child C (srv env) (use_proxy e)) ts (error e)))).
Proof.
  induction ts as [| x rest IH]; intros e Ha Ht.
  - unfold delegate. rewrite Ht. simpl length. rewrite do_while_eq.
    rewrite (loop_body_idle C (srv env) e None Ha Ht). simpl fst.
    unfold loop_cond. rewrite Ha. simpl.
    destruct e as [ae ts up er ca re]; simpl in *; subst.
    unfold blocking_after, set_error; simpl. destruct er; reflexivity.
  - simpl walk.
    destruct (blocking_child C (srv env) (use_proxy e) x) as [err | c] eqn:Hc.
    + destruct (record_error_fields (set_t e rest) err) as (Fa & Ft & Fu & Fr & Fc).
      rewrite (delegate_skip C env e (record_error (set_t e rest) err)).
      * rewrite IH; [| rewrite Fa; exact Ha | rewrite Ft; reflexivity].
        rewrite Fu. simpl use_proxy.
        rewrite record_error_is_first_write. simpl error.
        rewrite (blocking_after_fields e (set_error (set_t e rest) _)); reflexivity.
      * exact (loop_body_refused (srv env) e None x rest err Ha Ht Hc).
      * rewrite Fa. exact Ha.
      * unfold work. rewrite Fa, Ft, Ht. simpl. lia.
    + pose proof (delegate_pull env e (set_addr_enum (set_t e rest) (Some c)) c
                    (blocking_child C (srv env) (use_proxy e))) as Hd.
      simpl in Hd.
      rewrite Hd.
      * rewrite (blocking_after_fields e (set_addr_enum (set_t e rest) (Some c))); reflexivity.
      * exact (loop_body_expanded (srv env) e None x rest c Ha Ht Hc).
      * reflexivity.
      * rewrite Ht. simpl. lia.
      * intros err.
        destruct (record_error_fields (set_addr_enum (set_t e rest) (Some c)) err)
          as (Fa & Ft & Fu & Fr & Fc).
        rewrite IH; [| reflexivity | simpl; rewrite Ft; reflexivity].
        simpl use_proxy. rewrite Fu. simpl use_proxy.
        rewrite record_error_is_first_write. simpl error.
        apply f_equal2; [apply f_equal2; [reflexivity |] |];
          rewrite (blocking_after_fields (set_addr_enum (set_t e rest) (Some c))
                     (set_addr_enum (set_error _ _) None)); reflexivity.
Qed.

(** The blocking step on a service that has targets, from any cursor:
    service and resolver stay as they are, and cursor and result are
    those of the walk with the children of the blocking mode. *)
Lemma next_is_walk (env : Env) (e : Enumerator) (c : option GCancellable) :
  targets (srv env) <> [] ->
  g_network_service_address_enumerator_next C env e c
    = (env,
       fst (blocking_after e
              (resume (blocking_child C (srv env) (use_proxy e))
                 (addr_enum e) (t e) (error e))),
       snd (blocking_after e
              (resume (blocking_child C (srv env) (use_proxy e))
                 (addr_enum e) (t e) (error e)))).
Proof.
  intros Hr. rewrite next_resolved by exact Hr. unfold resume.
  destruct (addr_enum e) as [ch |] eqn:Ha.
  - apply (delegate_pull env e e ch); try assumption; try lia.
    + apply (loop_body_active C (srv env) e None ch Ha).
    + intros err. destruct (record_error_fields e err) as (Fa & Ft & Fu & Fr & Fc).
      rewrite delegate_walk with (ts := t e); [| reflexivity | simpl; exact Ft].
      simpl use_proxy. rewrite Fu. rewrite record_error_is_first_write. simpl error.
      apply f_equal2; [apply f_equal2; [reflexivity |] |];
        rewrite (blocking_after_fields e (set_addr_enum (set_error _ _) None)); reflexivity.
  - now apply delegate_walk.
Qed.

(** ** The suspending step as a walk *)

Lemma suspending_after_fields (e e' : Enumerator) simple (w : Walk) :
  use_proxy e' = use_proxy e -> cancellable e' = cancellable e ->
  suspending_after e' simple w = suspending_after e simple w.
Proof.
  intros H1 H2. unfold suspending_after. now rewrite H1, H2.
Qed.

(** The callback of a pull in flight, given what the chain does when the
    pull has failed. *)
Lemma child_in_flight (env : Env) (simple : GSimpleAsyncResult) (e1 : Enumerator)
    (c c' : Child) (r : PullResult) (m : nat) (child_of : GSrvTarget -> GError + Child) :
  g_socket_address_enumerator_next c = (r, c') ->
  addr_enum e1 = Some c' -> result e1 = Some simple ->
  (forall err,
      main_loop C m env
        (fst (next_async_have_targets C (set_addr_enum (record_error e1 err) None)))
        (snd (next_async_have_targets C (set_addr_enum (record_error e1 err) None)))
      = (env,
         fst (suspending_after e1 simple
                (walk child_of (t e1) (first_write (error e1) err))),
         Completed (snd (suspending_after e1 simple
                           (walk child_of (t e1) (first_write (error e1) err)))))) ->
  main_loop C (S m) env e1 (Waiting (ChildInFlight r))
    = (env,
       fst (suspending_after e1 simple (pulled c (t e1) (error e1) (walk child_of (t e1)))),
       Completed (snd (suspending_after e1 simple
                         (pulled c (t e1) (error e1) (walk child_of (t e1)))))).
Proof.
  intros Hp Ha Hr Hk. rewrite main_loop_step. unfold pulled. rewrite Hp.
  destruct r as [a | err |]; simpl dispatch.
  - unfold next_async_have_address, complete. rewrite Hr.
    rewrite main_loop_settled by exact I.
    unfold suspending_after, set_result; simpl. now rewrite Ha.
  - unfold next_async_have_address.
    destruct (next_async_have_targets C _) as [e' s'] eqn:Hh.
    specialize (Hk err). rewrite Hh in Hk. exact Hk.
  - unfold next_async_have_address, complete. rewrite Hr.
    rewrite main_loop_settled by exact I.
    unfold suspending_after, set_result; simpl. now rewrite Ha.
Qed.

Lemma walk_suspending_cons (up : bool) (x : GSrvTarget) (rest : list GSrvTarget) slot :
  walk (suspending_child C up) (x :: rest) slot
    = pulled (if up
              then g_socket_connectable_proxy_enumerate C
                     (g_network_address_new C (hostname x) (guint16 (port x)))
              else g_socket_connectable_enumerate C
                     (g_network_address_new C (hostname x) (guint16 (port x))))
        rest slot (walk (suspending_child C up) rest).
Proof.
  reflexivity.
Qed.

Lemma have_targets_walk (env : Env) (simple : GSimpleAsyncResult) (ts : list GSrvTarget) :
  forall e n, addr_enum e = None -> t e = ts -> result e = Some simple -> length ts <= n ->
    main_loop C n env (fst (next_async_have_targets C e)) (snd (next_async_have_targets C e))
      = (env,
         fst (suspending_after e simple
                (walk (suspending_child C (use_proxy e)) ts (error e))),
         Completed (snd (suspending_after e simple
                           (walk (suspending_child C (use_proxy e)) ts (error e))))).
Proof.
  induction ts as [| x rest IH]; intros e n Ha Ht Hr Hn.
  - destruct e as [ae ts up er ca re]; simpl in *; subst.
    unfold next_async_have_targets, complete; simpl.
    destruct er; simpl; rewrite main_loop_settled by exact I; reflexivity.
  - rewrite walk_suspending_cons.
    unfold next_async_have_targets. rewrite Ha, Ht.
    set (ch := if use_proxy e
               then g_socket_connectable_proxy_enumerate C
                      (g_network_address_new C (hostname x) (guint16 (port x)))
               else g_socket_connectable_enumerate C
                      (g_network_address_new C (hostname x) (guint16 (port x)))).
    change (addr_enum (set_addr_enum (set_t e rest) (Some ch))) with (Some ch).
    cbv iota.
    destruct (g_socket_address_enumerator_next ch) as [r c'] eqn:Hp. simpl fst; simpl snd.
    destruct n as [| m]; [simpl in Hn; lia |].
    set (e1 := set_addr_enum (set_addr_enum (set_t e rest) (Some ch)) (Some c')).
    rewrite (child_in_flight env simple e1 ch c' r m (suspending_child C (use_proxy e)) Hp);
      [| reflexivity | exact Hr |].
    + rewrite (suspending_after_fields e e1); reflexivity.
    + intros err. destruct (record_error_fields e1 err) as (Fa & Ft & Fu & Fr & Fc).
      rewrite IH; [| reflexivity | simpl; rewrite Ft; reflexivity
                   | simpl; rewrite Fr; exact Hr | simpl in Hn; lia].
      simpl use_proxy. rewrite Fu. rewrite record_error_is_first_write. simpl error.
      apply f_equal2; [apply f_equal2; [reflexivity |] | apply f_equal];
        rewrite (suspending_after_fields e1 (set_addr_enum (set_error _ _) None));
        reflexivity.
Qed.

Lemma have_targets_resume (env : Env) (simple : GSimpleAsyncResult) (e : Enumerator) (n : nat) :
  result e = Some simple -> work e <= n ->
  main_loop C n env (fst (next_async_have_targets C e)) (snd (next_async_have_targets C e))
    = (env,
       fst (suspending_after e simple
              (resume (suspending_child C (use_proxy e)) (addr_enum e) (t e) (error e))),
       Completed (snd (suspending_after e simple
                         (resume (suspending_child C (use_proxy e))
                            (addr_enum e) (t e) (error e))))).
Proof.
  intros Hr Hn. unfold resume. destruct (addr_enum e) as [ch |] eqn:Ha.
  - unfold next_async_have_targets. rewrite Ha. simpl addr_enum. rewrite Ha.
    destruct (g_socket_address_enumerator_next ch) as [r c'] eqn:Hp. simpl fst; simpl snd.
    unfold work in Hn. rewrite Ha in Hn. destruct n as [| m]; [lia |].
    rewrite (child_in_flight env simple (set_addr_enum e (Some c')) ch c' r m
               (suspending_child C (use_proxy e)) Hp); [| reflexivity | exact Hr |].
    + rewrite (suspending_after_fields e (set_addr_enum e (Some c'))); reflexivity.
    + intros err.
      destruct (record_error_fields (set_addr_enum e (Some c')) err) as (Fa & Ft & Fu & Fr & Fc).
      rewrite have_targets_walk with (simple := simple) (ts := t e);
        [| reflexivity | simpl; rewrite Ft; reflexivity
         | simpl; rewrite Fr; exact Hr | lia].
      simpl use_proxy. rewrite Fu. rewrite record_error_is_first_write. simpl error.
      apply f_equal2; [apply f_equal2; [reflexivity |] | apply f_equal];
        rewrite (suspending_after_fields (set_addr_enum e (Some c'))
                   (set_addr_enum (set_error _ _) None));
        reflexivity.
  - apply have_targets_walk; try assumption; try reflexivity.
    unfold work in Hn. rewrite Ha in Hn. lia.
Qed.

Lemma have_targets_pending (e : Enumerator) :
  pending_work (fst (next_async_have_targets C e)) (snd (next_async_have_targets C e)) = work e.
Proof.
  destruct e as [ae ts up er ca re].
  unfold next_async_have_targets, complete, work, g_socket_address_enumerator_next,
    set_addr_enum, set_t, set_error; simpl.
  repeat (case_match; simplify_eq/=); lia.
Qed.

Lemma armed_fields (e : Enumerator) c cb :
  addr_enum (armed e c cb) = addr_enum e /\ t (armed e c cb) = t e
  /\ use_proxy (armed e c cb) = use_proxy e /\ error (armed e c cb) = error e
  /\ result (armed e c cb) = Some (mkSimple cb None None)
  /\ cancellable (armed e c cb) = match c with Some c' => Some c' | None => cancellable e end.
Proof.
  unfold armed. destruct c; repeat split.
Qed.

Lemma next_async_resolved (env : Env) (e : Enumerator) c cb :
  targets (srv env) <> [] -> result e = None ->
  g_network_service_address_enumerator_next_async C env e c cb
    = (env, fst (next_async_have_targets C (armed e c cb)),
       snd (next_async_have_targets C (armed e c cb))).
Proof.
  intros Ht Hr. unfold g_network_service_address_enumerator_next_async. rewrite Hr.
  destruct (targets (srv env)); [contradiction |].
  fold (armed e c cb). destruct (next_async_have_targets C (armed e c cb)); reflexivity.
Qed.

(** The suspending step on a service that has targets, from any cursor
    with no result outstanding: service and resolver stay as they are,
    the caller's callback runs, and cursor and result are those of the
    walk with the children of the suspending mode. *)
Lemma next_suspending_is_walk (env : Env) (e : Enumerator) c cb :
  targets (srv env) <> [] -> result e = None ->
  next_suspending C env e c cb
    = (env,
       fst (suspending_after (armed e c cb) (mkSimple cb None None)
              (resume (suspending_child C (use_proxy e)) (addr_enum e) (t e) (error e))),
       Completed
         (snd (suspending_after (armed e c cb) (mkSimple cb None None)
                 (resume (suspending_child C (use_proxy e)) (addr_enum e) (t e) (error e))))).
Proof.
  intros Ht Hr. unfold next_suspending. rewrite next_async_resolved by assumption.
  destruct (armed_fields e c cb) as (Fa & Ft & Fu & Fe & Fr & Fc).
  rewrite (have_targets_resume env (mkSimple cb None None) (armed e c cb)).
  - now rewrite Fa, Ft, Fu, Fe.
  - exact Fr.
  - rewrite have_targets_pending. lia.
Qed.

(** ** Facts about walks *)

Lemma pulled_shape (c : Child) rest slot k :
  (forall slot', match w_end (k slot') with
                 | Yielded _ | Dry => exists c', w_child (k slot') = Some c'
                 | Finished => w_child (k slot') = None /\ w_rest (k slot') = []
                 end) ->
  match w_end (pulled c rest slot k) with
  | Yielded _ | Dry => exists c', w_child (pulled c rest slot k) = Some c'
  | Finished => w_child (pulled c rest slot k) = None /\ w_rest (pulled c rest slot k) = []
  end.
Proof.
  intros Hk. unfold pulled.
  destruct (g_socket_address_enumerator_next c) as [[a | err |] c']; simpl; eauto.
  apply Hk.
Qed.

(** A walk ends with a child exactly when it did not run out of targets. *)
Lemma walk_shape (child_of : GSrvTarget -> GError + Child) (ts : list GSrvTarget) :
  forall slot,
    match w_end (walk child_of ts slot) with
    | Yielded _ | Dry => exists c', w_child (walk child_of ts slot) = Some c'
    | Finished => w_child (walk child_of ts slot) = None /\ w_rest (walk child_of ts slot) = []
    end.
Proof.
  induction ts as [| x rest IH]; intros slot; simpl; [auto |].
  destruct (child_of x) as [err | c]; [apply IH |]. now apply pulled_shape.
Qed.

Lemma resume_shape (child_of : GSrvTarget -> GError + Child) ae ts slot :
  match w_end (resume child_of ae ts slot) with
  | Yielded _ | Dry => exists c', w_child (resume child_of ae ts slot) = Some c'
  | Finished =>
      w_child (resume child_of ae ts slot) = None /\ w_rest (resume child_of ae ts slot) = []
  end.
Proof.
  unfold resume. destruct ae as [c |]; [| apply walk_shape].
  apply pulled_shape. apply walk_shape.
Qed.

(** The targets a walk leaves are a tail of those it was given. *)
Lemma walk_rest_suffix (child_of : GSrvTarget -> GError + Child) (ts : list GSrvTarget) :
  forall slot, w_rest (walk child_of ts slot) `suffix_of` ts.
Proof.
  induction ts as [| x rest IH]; intros slot; simpl; [reflexivity |].
  destruct (child_of x) as [err | c].
  - apply suffix_cons_r, IH.
  - unfold pulled. destruct (g_socket_address_enumerator_next c) as [[a | err |] c']; simpl.
    + apply suffix_cons_r. reflexivity.
    + apply suffix_cons_r, IH.
    + apply suffix_cons_r. reflexivity.
Qed.

Lemma resume_rest_suffix (child_of : GSrvTarget -> GError + Child) ae ts slot :
  w_rest (resume child_of ae ts slot) `suffix_of` ts.
Proof.
  unfold resume. destruct ae as [c |]; [| apply walk_rest_suffix].
  unfold pulled. destruct (g_socket_address_enumerator_next c) as [[a | err |] c']; simpl;
    try reflexivity. apply walk_rest_suffix.
Qed.

(** A walk never replaces or drops an error already in the slot. *)
Lemma walk_slot_kept (child_of : GSrvTarget -> GError + Child) (ts : list GSrvTarget) :
  forall x, w_slot (walk child_of ts (Some x)) = Some x.
Proof.
  induction ts as [| y rest IH]; intros x; simpl; [reflexivity |].
  destruct (child_of y) as [err | c]; [apply IH |].
  unfold pulled. destruct (g_socket_address_enumerator_next c) as [[a | err |] c']; simpl;
    try reflexivity. apply IH.
Qed.

Lemma resume_slot_kept (child_of : GSrvTarget -> GError + Child) ae ts x :
  w_slot (resume child_of ae ts (Some x)) = Some x.
Proof.
  unfold resume. destruct ae as [c |]; [| apply walk_slot_kept].
  unfold pulled. destruct (g_socket_address_enumerator_next c) as [[a | err |] c']; simpl;
    try reflexivity. apply walk_slot_kept.
Qed.

(** Walks with children that agree on the targets are the same walk. *)
Lemma walk_ext (f g : GSrvTarget -> GError + Child) (ts : list GSrvTarget) :
  Forall (fun x => f x = g x) ts -> forall slot, walk f ts slot = walk g ts slot.
Proof.
  induction 1 as [| x rest Hx _ IH]; intros slot; simpl; [reflexivity |].
  rewrite Hx. destruct (g x) as [err | c]; [apply IH |].
  unfold pulled. destruct (g_socket_address_enumerator_next c) as [[a | err |] c'];
    try reflexivity. apply IH.
Qed.

Lemma resume_ext (f g : GSrvTarget -> GError + Child) ae ts slot :
  Forall (fun x => f x = g x) ts -> resume f ae ts slot = resume g ae ts slot.
Proof.
  intros H. unfold resume. destruct ae as [c |]; [| now apply walk_ext].
  unfold pulled. destruct (g_socket_address_enumerator_next c) as [[a | err |] c'];
    try reflexivity. now apply walk_ext.
Qed.

(** When every target fails at once, the walk takes them all and keeps
    the first error. *)
Lemma walk_all_fail (child_of : GSrvTarget -> GError + Child) (ts : list GSrvTarget) :
  Forall (fun y => fails_at_once child_of y <> None) ts ->
  forall x, walk child_of ts (Some x) = mkWalk Finished None [] (Some x).
Proof.
  induction 1 as [| y rest Hy _ IH]; intros x; simpl; [reflexivity |].
  revert Hy. unfold fails_at_once, pulled.
  destruct (child_of y) as [err | c]; [intros _; apply IH |].
  destruct (g_socket_address_enumerator_next c) as [[a | err |] c']; simpl;
    intros Hy; try contradiction. apply IH.
Qed.

Lemma walk_all_fail_first (child_of : GSrvTarget -> GError + Child) (y : GSrvTarget)
    (rest : list GSrvTarget) :
  Forall (fun y => fails_at_once child_of y <> None) (y :: rest) ->
  exists err, fails_at_once child_of y = Some err
    /\ walk child_of (y :: rest) None = mkWalk Finished None [] (Some err).
Proof.
  intros H. apply Forall_cons in H as [Hy Hrest]. simpl.
  revert Hy. unfold fails_at_once, pulled.
  destruct (child_of y) as [err | c].
  - intros _. exists err. split; [reflexivity |]. now apply walk_all_fail.
  - destruct (g_socket_address_enumerator_next c) as [[a | err |] c']; simpl;
      intros Hy; try contradiction.
    exists err. split; [reflexivity |]. now apply walk_all_fail.
Qed.

End WalkFacts.

Section StepProperties.

Context (C : Collaborators).

(** ** What one step does *)

(** X1. On a service that has targets, a blocking step from any cursor
    is the walk over the cursor's targets with the children of the
    blocking mode: an active child is pulled first, a failing target or
    child moves the walk on with the first error kept, and the step ends
    on the first address, on an exhausted child, or with no target left.
    Without an address the slot is handed over and emptied.  Service and
    resolver are not touched. *)
Theorem blocking_step_is_walk (env : Env) (e : Enumerator) (c : option GCancellable) :
  targets (srv env) <> [] ->
  g_network_service_address_enumerator_next C env e c
    = (env,
       fst (blocking_after e
              (resume (blocking_child C (srv env) (use_proxy e))
                 (addr_enum e) (t e) (error e))),
       snd (blocking_after e
              (resume (blocking_child C (srv env) (use_proxy e))
                 (addr_enum e) (t e) (error e)))).
Proof.
  apply next_is_walk.
Qed.

(** X2. On a service that has targets, a suspending step from a cursor
    with no result outstanding runs the caller's callback and is the
    same walk with the children of the suspending mode; the slot is
    handed over only when no target is left, and stays where it is when
    the step ends on an exhausted child. *)
Theorem suspending_step_is_walk (env : Env) (e : Enumerator)
    (c : option GCancellable) (cb : GAsyncReadyCallback) :
  targets (srv env) <> [] -> result e = None ->
  next_suspending C env e c cb
    = (env,
       fst (suspending_after (armed e c cb) (mkSimple cb None None)
              (resume (suspending_child C (use_proxy e)) (addr_enum e) (t e) (error e))),
       Completed
         (snd (suspending_after (armed e c cb) (mkSimple cb None None)
                 (resume (suspending_child C (use_proxy e)) (addr_enum e) (t e) (error e))))).
Proof.
  apply next_suspending_is_walk.
Qed.

(** X3. If for every target on the cursor the blocking mode builds the
    child the suspending mode builds, the two modes take the same step:
    same address (or none), same child and cursor afterwards.  They also
    hand over the same error and leave the same slot, unless the step
    ends on an exhausted child. *)
Theorem modes_agree_on_agreeing_children (env : Env) (e : Enumerator)
    (c c' : option GCancellable) (cb : GAsyncReadyCallback) :
  targets (srv env) <> [] -> result e = None ->
  Forall (fun x => blocking_child C (srv env) (use_proxy e) x
                   = suspending_child C (use_proxy e) x) (t e) ->
  exists rs,
    delivered (snd (next_suspending C env e c' cb)) = Some rs
    /\ addr_enum (snd (fst (g_network_service_address_enumerator_next C env e c)))
       = addr_enum (snd (fst (next_suspending C env e c' cb)))
    /\ t (snd (fst (g_network_service_address_enumerator_next C env e c)))
       = t (snd (fst (next_suspending C env e c' cb)))
    /\ fst (snd (g_network_service_address_enumerator_next C env e c)) = fst rs
    /\ (fst (snd (g_network_service_address_enumerator_next C env e c)) <> None
        \/ addr_enum (snd (fst (g_network_service_address_enumerator_next C env e c))) = None ->
        snd (g_network_service_address_enumerator_next C env e c) = rs
        /\ error (snd (fst (g_network_service_address_enumerator_next C env e c)))
           = error (snd (fst (next_suspending C env e c' cb)))).
Proof.
  intros Ht Hr Hag.
  rewrite next_is_walk, next_suspending_is_walk by assumption.
  rewrite (resume_ext _ _ (addr_enum e) (t e) (error e) Hag).
  pose proof (resume_shape (suspending_child C (use_proxy e)) (addr_enum e) (t e) (error e))
    as Hs.
  destruct (resume (suspending_child C (use_proxy e)) (addr_enum e) (t e) (error e))
    as [we wc wr ws].
  unfold blocking_after, suspending_after; simpl in *.
  destruct we as [a | |]; simpl.
  - eexists. split; [reflexivity |]. repeat split.
  - destruct Hs as [c0 ->]. eexists. split; [reflexivity |]. repeat split.
    all: destruct H as [H | H]; [now contradiction H | discriminate H].
  - destruct ws as [x |]; eexists; (split; [reflexivity |]); repeat split.
Qed.

(** X4. Blocking mode, cursor with no child and an empty slot: if every
    target left fails at once (hostname refused, URI refused, or first
    pull on its child fails), the step tries them all, returns no
    address and hands over the error of the first one; nothing is left
    on the cursor and the slot is empty again. *)
Theorem failing_targets_give_first_error (env : Env) (e : Enumerator)
    (c : option GCancellable) (x : GSrvTarget) (rest : list GSrvTarget) :
  targets (srv env) <> [] ->
  addr_enum e = None -> error e = None -> t e = x :: rest ->
  Forall (fun y => fails_at_once (blocking_child C (srv env) (use_proxy e)) y <> None)
         (x :: rest) ->
  exists err,
    fails_at_once (blocking_child C (srv env) (use_proxy e)) x = Some err
    /\ g_network_service_address_enumerator_next C env e c
       = (env, mkEnum None [] (use_proxy e) None (cancellable e) (result e),
          (None, Some err)).
Proof.
  intros Hr Ha He Ht Hall.
  destruct (walk_all_fail_first _ x rest Hall) as (err & Hf & Hw).
  exists err. split; [exact Hf |].
  rewrite next_is_walk by exact Hr. rewrite Ha, He, Ht. unfold resume. rewrite Hw.
  reflexivity.
Qed.

(** X5. The same in the suspending mode, where a target fails at once
    when the first pull on the child made from its raw hostname fails:
    the step completes with no address and the error of the first
    target, and leaves nothing on the cursor. *)
Theorem failing_targets_give_first_error_suspending (env : Env) (e : Enumerator)
    (c : option GCancellable) (cb : GAsyncReadyCallback)
    (x : GSrvTarget) (rest : list GSrvTarget) :
  targets (srv env) <> [] -> result e = None ->
  addr_enum e = None -> error e = None -> t e = x :: rest ->
  Forall (fun y => fails_at_once (suspending_child C (use_proxy e)) y <> None) (x :: rest) ->
  exists err,
    fails_at_once (suspending_child C (use_proxy e)) x = Some err
    /\ next_suspending C env e c cb
       = (env,
          mkEnum None [] (use_proxy e) None (cancellable (armed e c cb)) None,
          Completed (mkSimple cb (Some err) None))
    /\ delivered (snd (next_suspending C env e c cb)) = Some (None, Some err).
Proof.
  intros Hr Hres Ha He Ht Hall.
  destruct (walk_all_fail_first _ x rest Hall) as (err & Hf & Hw).
  exists err. split; [exact Hf |].
  rewrite next_suspending_is_walk by assumption. rewrite Ha, He, Ht. unfold resume. rewrite Hw.
  destruct (armed_fields e c cb) as (_ & _ & Fu & _).
  unfold suspending_after; simpl. rewrite Fu. split; reflexivity.
Qed.

Lemma next_suspending_rejected (env : Env) (e : Enumerator) c cb simple :
  result e = Some simple -> next_suspending C env e c cb = (env, e, Rejected).
Proof.
  intros H. unfold next_suspending. now rewrite (next_async_rejected C env e c cb simple H).
Qed.

(** X6. On a service that has targets a step only moves the cursor
    forward: the targets left after a step of either mode are a tail of
    the targets left before it. *)
Theorem cursor_moves_forward (env : Env) (e : Enumerator)
    (c : option GCancellable) (cb : GAsyncReadyCallback) :
  targets (srv env) <> [] ->
  t (snd (fst (g_network_service_address_enumerator_next C env e c))) `suffix_of` t e
  /\ t (snd (fst (next_suspending C env e c cb))) `suffix_of` t e.
Proof.
  intros Hr. split.
  - rewrite next_is_walk by exact Hr. simpl.
    pose proof (resume_rest_suffix (blocking_child C (srv env) (use_proxy e))
                  (addr_enum e) (t e) (error e)) as H.
    unfold blocking_after. destruct (w_end _); exact H.
  - destruct (result e) as [simple |] eqn:Hres.
    + rewrite (next_suspending_rejected env e c cb simple Hres). reflexivity.
    + rewrite next_suspending_is_walk by assumption. simpl.
      pose proof (resume_rest_suffix (suspending_child C (use_proxy e))
                    (addr_enum e) (t e) (error e)) as H.
      unfold suspending_after. destruct (w_end _); exact H.
Qed.

(** X7. An error in the slot is never replaced and never dropped.  After
    a blocking step it is still in the slot and the step returned an
    address, or the step returned no address, handed over exactly that
    error and emptied the slot.  After a suspending step it is still in
    the slot and no error was delivered, or it was delivered with no
    address, the slot is empty and the walk is over. *)
Theorem recorded_error_kept_or_handed_over (env : Env) (e : Enumerator)
    (c : option GCancellable) (cb : GAsyncReadyCallback) (x : GError) :
  targets (srv env) <> [] -> error e = Some x ->
  ((error (snd (fst (g_network_service_address_enumerator_next C env e c))) = Some x
    /\ fst (snd (g_network_service_address_enumerator_next C env e c)) <> None
    /\ snd (snd (g_network_service_address_enumerator_next C env e c)) = None)
   \/ (error (snd (fst (g_network_service_address_enumerator_next C env e c))) = None
       /\ snd (g_network_service_address_enumerator_next C env e c) = (None, Some x)))
  /\ (result e = None ->
      exists rs, delivered (snd (next_suspending C env e c cb)) = Some rs
        /\ ((error (snd (fst (next_suspending C env e c cb))) = Some x /\ snd rs = None)
            \/ (error (snd (fst (next_suspending C env e c cb))) = None
                /\ rs = (None, Some x)
                /\ addr_enum (snd (fst (next_suspending C env e c cb))) = None
                /\ t (snd (fst (next_suspending C env e c cb))) = []))).
Proof.
  intros Hr He. split.
  - rewrite next_is_walk by exact Hr. rewrite He.
    pose proof (resume_slot_kept (blocking_child C (srv env) (use_proxy e))
                  (addr_enum e) (t e) x) as Hs.
    destruct (resume _ _ _ _) as [we wc wr ws]. simpl in Hs. subst ws.
    unfold blocking_after; simpl.
    destruct we as [a | |]; simpl;
      [left; repeat split; discriminate | right; split; reflexivity ..].
  - intros Hres. rewrite next_suspending_is_walk by assumption. rewrite He.
    pose proof (resume_slot_kept (suspending_child C (use_proxy e))
                  (addr_enum e) (t e) x) as Hs.
    pose proof (resume_shape (suspending_child C (use_proxy e))
                  (addr_enum e) (t e) (Some x)) as Hsh.
    destruct (resume _ _ _ _) as [we wc wr ws]. simpl in Hs, Hsh. subst ws.
    unfold suspending_after; simpl.
    destruct we as [a | |]; simpl; eexists; (split; [reflexivity |]).
    + left. split; reflexivity.
    + left. split; reflexivity.
    + right. destruct Hsh as [-> ->]. repeat split.
Qed.

(** X8. A step never gives the caller both an address and an error,
    whether the service had to be looked up or not. *)
Theorem never_address_and_error (env : Env) (e : Enumerator)
    (c : option GCancellable) (cb : GAsyncReadyCallback) :
  (fst (snd (g_network_service_address_enumerator_next C env e c)) = None
   \/ snd (snd (g_network_service_address_enumerator_next C env e c)) = None)
  /\ (forall rs, delivered (snd (next_suspending C env e c cb)) = Some rs ->
        fst rs = None \/ snd rs = None).
Proof.
  split.
  - assert (D : forall env e, fst (snd (delegate C env e)) = None
                              \/ snd (snd (delegate C env e)) = None).
    { intros env0 e0. unfold delegate. destruct (do_while C _ _ _) as [e' ret].
      destruct ret; simpl; [auto |]. destruct (error e'); simpl; auto. }
    unfold g_network_service_address_enumerator_next.
    destruct (targets (srv env)); [| apply D]. simpl.
    destruct (answers _ _ _ _ _) as [[| y l] | y]; simpl; auto.
  - intros rs. destruct (snd (next_suspending C env e c cb)); simpl; try discriminate.
    intros H. simplify_eq. unfold g_network_service_address_enumerator_next_finish.
    destruct (simple_error simple); simpl; auto.
Qed.

(** X9. A step looks the service up exactly once while the service has
    no targets, and never once it has some; a suspending step refused at
    entry looks nothing up. *)
Theorem one_lookup_until_resolved (env : Env) (e : Enumerator)
    (c : option GCancellable) (cb : GAsyncReadyCallback) :
  calls (resolver (fst (fst (g_network_service_address_enumerator_next C env e c))))
    = match targets (srv env) with
      | [] => S (calls (resolver env))
      | _ :: _ => calls (resolver env)
      end
  /\ calls (resolver (fst (fst (next_suspending C env e c cb))))
     = match targets (srv env), result e with
       | [], None => S (calls (resolver env))
       | _, _ => calls (resolver env)
       end.
Proof.
  split.
  - destruct (targets (srv env)) as [| y l] eqn:Ht.
    + now rewrite next_unresolved_env.
    + rewrite next_resolved_env; [reflexivity | rewrite Ht; discriminate].
  - destruct (result e) as [simple |] eqn:Hres.
    + rewrite (next_suspending_rejected env e c cb simple Hres).
      destruct (targets (srv env)); reflexivity.
    + destruct (targets (srv env)) as [| y l] eqn:Ht.
      * now rewrite next_suspending_unresolved_env.
      * rewrite next_suspending_resolved_env; [reflexivity | rewrite Ht; discriminate].
Qed.

(** X10. A failed lookup ends the step at once with the resolver's error
    and is not remembered: the service still has no targets (the next
    step looks it up again), and child, cursor and slot of the
    enumerator are as before. *)
Theorem failed_lookup_reported_not_kept (env : Env) (e : Enumerator)
    (c : option GCancellable) (cb : GAsyncReadyCallback) (x : GError) :
  targets (srv env) = [] -> next_answer env = LookupError x ->
  g_network_service_address_enumerator_next C env e c
    = (mkEnv (srv env) (mkResolver (answers (resolver env)) (S (calls (resolver env)))),
       e, (None, Some x))
  /\ (result e = None ->
      next_suspending C env e c cb
        = (mkEnv (srv env) (mkResolver (answers (resolver env)) (S (calls (resolver env)))),
           set_result (armed e c cb) None,
           Completed (mkSimple cb (Some x) None))).
Proof.
  intros Ht Ha. split.
  - unfold g_network_service_address_enumerator_next. rewrite Ht.
    unfold g_resolver_lookup_service. fold (next_answer env). now rewrite Ha.
  - intros Hres. rewrite next_suspending_unresolved by assumption. rewrite Ha.
    fold (armed e c cb). destruct (armed_fields e c cb) as (_ & _ & _ & _ & Fr & _).
    unfold next_async_resolved_targets, complete. rewrite Fr. simpl.
    now rewrite <- Ht, set_targets_same.
Qed.

Lemma dispatch_env_free (env1 env2 : Env) (e : Enumerator) (w : InFlight) :
  snd (fst (dispatch C env1 e w)) = snd (fst (dispatch C env2 e w))
  /\ snd (dispatch C env1 e w) = snd (dispatch C env2 e w).
Proof.
  destruct w as [[l | x] | r]; simpl.
  - destruct (next_async_have_targets C _); split; reflexivity.
  - destruct (complete _ _); split; reflexivity.
  - destruct (next_async_have_address C _ _); split; reflexivity.
Qed.

Lemma main_loop_env_free (n : nat) :
  forall env1 env2 e s,
    snd (fst (main_loop C n env1 e s)) = snd (fst (main_loop C n env2 e s))
    /\ snd (main_loop C n env1 e s) = snd (main_loop C n env2 e s).
Proof.
  induction n as [| n IH]; intros env1 env2 e s.
  - destruct s; split; reflexivity.
  - destruct s as [| w | |]; try (split; reflexivity). rewrite !main_loop_step.
    destruct (dispatch_env_free env1 env2 e w) as [H1 H2].
    destruct (dispatch C env1 e w) as [[env1' e1] s1].
    destruct (dispatch C env2 e w) as [[env2' e2] s2]. simpl in H1, H2. subst.
    apply IH.
Qed.

(** X12. The suspending mode never reads the scheme: after any
    [set_scheme] the suspending step leaves the same cursor and delivers
    the same result as before it. *)
Theorem suspending_step_ignores_scheme (env : Env) (e : Enumerator)
    (c : option GCancellable) (cb : GAsyncReadyCallback) (s : option string) :
  snd (fst (next_suspending C
              (mkEnv (g_network_service_set_scheme (srv env) s) (resolver env)) e c cb))
    = snd (fst (next_suspending C env e c cb))
  /\ snd (next_suspending C
            (mkEnv (g_network_service_set_scheme (srv env) s) (resolver env)) e c cb)
     = snd (next_suspending C env e c cb).
Proof.
  unfold next_suspending, g_network_service_address_enumerator_next_async. simpl.
  destruct (result e); [split; reflexivity |].
  destruct (targets (srv env)).
  - apply main_loop_env_free.
  - destruct (next_async_have_targets C _) as [e3 s3]. apply main_loop_env_free.
Qed.

(** *** The result object of a step *)

Lemma complete_tracked (cb : GAsyncReadyCallback) (e : Enumerator) fill :
  (exists simple, result e = Some simple /\ callback simple = cb) ->
  (forall simple, callback (fill simple) = callback simple) ->
  tracked cb (fst (complete e fill)) (snd (complete e fill)).
Proof.
  intros (simple & Hr & Hc) Hf. unfold complete. rewrite Hr. simpl.
  split; [reflexivity |]. now rewrite Hf.
Qed.

Lemma have_targets_tracked (cb : GAsyncReadyCallback) (e : Enumerator) :
  (exists simple, result e = Some simple /\ callback simple = cb) ->
  tracked cb (fst (next_async_have_targets C e)) (snd (next_async_have_targets C e)).
Proof.
  intros H. unfold next_async_have_targets.
  set (e1 := match addr_enum e, t e with
             | None, target :: rest => _
             | _, _ => e
             end).
  assert (H1 : exists simple, result e1 = Some simple /\ callback simple = cb).
  { unfold e1. destruct (addr_enum e), (t e); exact H. }
  clearbody e1. destruct (addr_enum e1) as [ch |].
  - destruct (g_socket_address_enumerator_next ch). exact H1.
  - destruct (error e1); apply complete_tracked; try exact H1; reflexivity.
Qed.

Lemma dispatch_tracked (cb : GAsyncReadyCallback) (env : Env) (e : Enumerator) (w : InFlight) :
  (exists simple, result e = Some simple /\ callback simple = cb) ->
  tracked cb (snd (fst (dispatch C env e w))) (snd (dispatch C env e w)).
Proof.
  intros H. destruct w as [[l | x] | [a | x |]]; simpl.
  - pose proof (have_targets_tracked cb (set_t e l) H) as Ht.
    destruct (next_async_have_targets C _); exact Ht.
  - pose proof (complete_tracked cb e
                  (fun simple => g_simple_async_result_set_from_error simple x) H
                  (fun _ => eq_refl)) as Ht.
    destruct (complete _ _); exact Ht.
  - pose proof (complete_tracked cb e
                  (fun simple => g_simple_async_result_set_op_res_gpointer simple a) H
                  (fun _ => eq_refl)) as Ht.
    destruct (complete _ _); exact Ht.
  - assert (H' : exists simple,
               result (set_addr_enum (record_error e x) None) = Some simple
               /\ callback simple = cb).
    { destruct (record_error_fields e x) as (_ & _ & _ & Fr & _). simpl. now rewrite Fr. }
    pose proof (have_targets_tracked cb _ H') as Ht.
    destruct (next_async_have_targets C _); exact Ht.
  - pose proof (complete_tracked cb e (fun simple => simple) H (fun _ => eq_refl)) as Ht.
    destruct (complete _ _); exact Ht.
Qed.

Lemma main_loop_tracked (cb : GAsyncReadyCallback) (n : nat) :
  forall env e s, tracked cb e s ->
    tracked cb (snd (fst (main_loop C n env e s))) (snd (main_loop C n env e s)).
Proof.
  induction n as [| n IH]; intros env e s H.
  - destruct s; exact H.
  - destruct s as [| w | |]; try exact H. rewrite main_loop_step.
    pose proof (dispatch_tracked cb env e w H) as Hd.
    destruct (dispatch C env e w) as [[env' e'] s']. now apply IH.
Qed.

(** X16. A suspending step issued with no result outstanding is always
    carried through: whatever the resolver and the children answer, the
    chain of callbacks ends by completing the result object of the step
    with the caller's callback, and no result is outstanding afterwards. *)
Theorem accepted_step_completes (env : Env) (e : Enumerator)
    (c : option GCancellable) (cb : GAsyncReadyCallback) :
  result e = None ->
  exists simple,
    snd (next_suspending C env e c cb) = Completed simple
    /\ callback simple = cb
    /\ result (snd (fst (next_suspending C env e c cb))) = None.
Proof.
  intros Hr. pose proof (next_suspending_settles C env e c cb) as Hs.
  pose proof (next_suspending_done C env e c cb Hr) as Hd.
  assert (Ht : tracked cb (snd (fst (next_suspending C env e c cb)))
                 (snd (next_suspending C env e c cb))).
  { unfold next_suspending.
    destruct (g_network_service_address_enumerator_next_async C env e c cb)
      as [[env1 e1] s1] eqn:Ha.
    apply main_loop_tracked.
    revert Ha. unfold g_network_service_address_enumerator_next_async. rewrite Hr.
    fold (armed e c cb). destruct (armed_fields e c cb) as (_ & _ & _ & _ & Fr & _).
    destruct (targets (srv env)).
    - simpl. intros Ha. simplify_eq. simpl. eauto.
    - pose proof (have_targets_tracked cb (armed e c cb)
                    (ex_intro _ (mkSimple cb None None) (conj Fr eq_refl))) as Hh.
      destruct (next_async_have_targets C _) as [e3 s3]. intros Ha. simplify_eq. exact Hh. }
  destruct (snd (next_suspending C env e c cb)) as [| w | simple |]; simpl in *;
    try contradiction.
  exists simple. tauto.
Qed.

(** *** What a step leaves alone *)

Lemma loop_body_static (srv : GNetworkService) (e : Enumerator) ret :
  use_proxy (fst (loop_body C srv (e, ret))) = use_proxy e
  /\ cancellable (fst (loop_body C srv (e, ret))) = cancellable e.
Proof.
  destruct e as [ae ts up er ca re].
  unfold loop_body, expand_target, pull_child, record_error,
    g_socket_address_enumerator_next, set_t, set_addr_enum, set_error; simpl.
  repeat (case_match; simplify_eq/=); split; reflexivity.
Qed.

Lemma do_while_static (srv : GNetworkService) (n : nat) :
  forall st,
    use_proxy (fst (do_while C n srv st)) = use_proxy (fst st)
    /\ cancellable (fst (do_while C n srv st)) = cancellable (fst st).
Proof.
  induction n as [| n IH]; intros [e ret]; rewrite do_while_eq;
    pose proof (loop_body_static srv e ret) as [H1 H2];
    destruct (loop_cond _); change (fst (e, ret)) with e; try (split; assumption).
  destruct (IH (loop_body C srv (e, ret))) as [H3 H4]. split; congruence.
Qed.

Lemma have_targets_use_proxy (e : Enumerator) :
  use_proxy (fst (next_async_have_targets C e)) = use_proxy e.
Proof.
  destruct e as [ae ts up er ca re].
  unfold next_async_have_targets, complete, g_socket_address_enumerator_next,
    set_t, set_addr_enum, set_error, set_result; simpl.
  repeat (case_match; simplify_eq/=); reflexivity.
Qed.

Lemma dispatch_use_proxy (env : Env) (e : Enumerator) (w : InFlight) :
  use_proxy (snd (fst (dispatch C env e w))) = use_proxy e.
Proof.
  destruct w as [[l | x] | [a | x |]]; simpl.
  - pose proof (have_targets_use_proxy (set_t e l)) as H.
    destruct (next_async_have_targets C _); exact H.
  - unfold complete. destruct (result e); reflexivity.
  - unfold complete. destruct (result e); reflexivity.
  - pose proof (have_targets_use_proxy (set_addr_enum (record_error e x) None)) as H.
    destruct (record_error_fields e x) as (_ & _ & Fu & _).
    destruct (next_async_have_targets C _). simpl in *. congruence.
  - unfold complete. destruct (result e); reflexivity.
Qed.

Lemma main_loop_use_proxy (n : nat) :
  forall env e s, use_proxy (snd (fst (main_loop C n env e s))) = use_proxy e.
Proof.
  induction n as [| n IH]; intros env e s.
  - destruct s; reflexivity.
  - destruct s as [| w | |]; try reflexivity. rewrite main_loop_step.
    pose proof (dispatch_use_proxy env e w) as Hd.
    destruct (dispatch C env e w) as [[env' e'] s']. rewrite IH. exact Hd.
Qed.

(** X17. The proxy mode of an enumerator is fixed when it is made: no
    step of either mode changes it.  A blocking step moreover leaves the
    stored cancellable and the result object of the suspending mode
    untouched. *)
Theorem steps_keep_mode (env : Env) (e : Enumerator)
    (c : option GCancellable) (cb : GAsyncReadyCallback) :
  use_proxy (snd (fst (g_network_service_address_enumerator_next C env e c))) = use_proxy e
  /\ cancellable (snd (fst (g_network_service_address_enumerator_next C env e c)))
     = cancellable e
  /\ result (snd (fst (g_network_service_address_enumerator_next C env e c))) = result e
  /\ use_proxy (snd (fst (next_suspending C env e c cb))) = use_proxy e.
Proof.
  assert (D : forall env e,
             use_proxy (snd (fst (delegate C env e))) = use_proxy e
             /\ cancellable (snd (fst (delegate C env e))) = cancellable e).
  { intros env0 e0. unfold delegate.
    pose proof (do_while_static (srv env0) (length (t e0)) (e0, None)) as H.
    destruct (do_while _ _ _ _) as [e' ret]. simpl in H.
    destruct ret; [exact H |]. destruct (error e'); exact H. }
  assert (B : use_proxy (snd (fst (g_network_service_address_enumerator_next C env e c)))
              = use_proxy e
              /\ cancellable (snd (fst (g_network_service_address_enumerator_next C env e c)))
                 = cancellable e).
  { unfold g_network_service_address_enumerator_next.
    destruct (targets (srv env)); [| apply D]. simpl.
    destruct (answers _ _ _ _ _) as [[| y l] | y]; simpl; auto.
    destruct (D (mkEnv (set_targets (srv env) (y :: l))
                       (mkResolver (answers (resolver env)) (S (calls (resolver env)))))
                (set_t e (y :: l))) as [H1 H2]. auto. }
  destruct B as [B1 B2]. split; [exact B1 |]. split; [exact B2 |].
  split; [apply next_result |].
  unfold next_suspending, g_network_service_address_enumerator_next_async.
  destruct (result e); [reflexivity |].
  destruct (targets (srv env)).
  - simpl. rewrite main_loop_use_proxy. destruct c; reflexivity.
  - pose proof (have_targets_use_proxy (armed e c cb)) as Hh. fold (armed e c cb).
    destruct (next_async_have_targets C _) as [e3 s3]. rewrite main_loop_use_proxy.
    simpl in Hh. rewrite Hh. destruct (armed_fields e c cb) as (_ & _ & Fu & _). exact Fu.
Qed.

(** X18. How a blocking step on a service with targets leaves the
    cursor.  If it returned an address, the child that gave it is still
    active.  If it returned none, the slot is empty, and if moreover no
    child is active then no target is left. *)
Theorem blocking_step_end_state (env : Env) (e : Enumerator) (c : option GCancellable) :
  targets (srv env) <> [] ->
  (fst (snd (g_network_service_address_enumerator_next C env e c)) <> None ->
   addr_enum (snd (fst (g_network_service_address_enumerator_next C env e c))) <> None)
  /\ (fst (snd (g_network_service_address_enumerator_next C env e c)) = None ->
      error (snd (fst (g_network_service_address_enumerator_next C env e c))) = None
      /\ (addr_enum (snd (fst (g_network_service_address_enumerator_next C env e c))) = None ->
          t (snd (fst (g_network_service_address_enumerator_next C env e c))) = [])).
Proof.
  intros Hr. rewrite next_is_walk by exact Hr.
  pose proof (resume_shape (blocking_child C (srv env) (use_proxy e))
                (addr_enum e) (t e) (error e)) as Hs.
  destruct (resume _ _ _ _) as [we wc wr ws]. unfold blocking_after; simpl in *.
  destruct we as [a | |]; simpl.
  - destruct Hs as [c0 ->]. split; [discriminate | intros H; discriminate H].
  - destruct Hs as [c0 ->]. split; [intros H; now contradiction H |].
    intros _. split; [reflexivity | discriminate].
  - destruct Hs as [-> ->]. split; [intros H; now contradiction H |]. auto.
Qed.

(** X19. For a port within the 16 bits of an SRV record the cast of the
    suspending mode changes nothing: the child is made for the raw
    hostname and the port of the target. *)
Theorem suspending_child_in_range (up : bool) (x : GSrvTarget) :
  (0 <= port x < 65536)%Z ->
  suspending_child C up x
    = inr (if up
           then g_socket_connectable_proxy_enumerate C
                  (g_network_address_new C (hostname x) (port x))
           else g_socket_connectable_enumerate C
                  (g_network_address_new C (hostname x) (port x))).
Proof.
  intros H. unfold suspending_child, guint16.
  change 65535%Z with (Z.ones 16). rewrite Z.land_ones by lia.
  rewrite Z.mod_small by (change (2 ^ 16)%Z with 65536%Z; lia). reflexivity.
Qed.

(** X21. The step that resolves the service.  When the service has no
    targets and the resolver answers with at least one, the step stores
    the answer in the service as it came, puts the cursor on its first
    target, and is from there the step on a service that has targets;
    this holds for the blocking step and, with no result outstanding,
    for the suspending step. *)
Theorem resolving_step_starts_at_head (env : Env) (e : Enumerator)
    (c : option GCancellable) (cb : GAsyncReadyCallback)
    (x : GSrvTarget) (l : list GSrvTarget) :
  targets (srv env) = [] -> next_answer env = LookupOk (x :: l) ->
  g_network_service_address_enumerator_next C env e c
    = g_network_service_address_enumerator_next C
        (mkEnv (set_targets (srv env) (x :: l))
               (mkResolver (answers (resolver env)) (S (calls (resolver env)))))
        (set_t e (x :: l)) c
  /\ (result e = None ->
      next_suspending C env e c cb
        = next_suspending C
            (mkEnv (set_targets (srv env) (x :: l))
                   (mkResolver (answers (resolver env)) (S (calls (resolver env)))))
            (set_t e (x :: l)) c cb).
Proof.
  intros Ht Ha. split.
  - rewrite (next_resolved C (mkEnv _ _)) by discriminate.
    unfold g_network_service_address_enumerator_next at 1. rewrite Ht.
    unfold g_resolver_lookup_service. fold (next_answer env). now rewrite Ha.
  - intros Hres.
    rewrite (next_suspending_is_walk C (mkEnv _ _) (set_t e (x :: l)))
      by (try discriminate; exact Hres).
    rewrite next_suspending_unresolved by assumption. rewrite Ha. fold (armed e c cb).
    destruct (armed_fields e c cb) as (Fa & Ft & Fu & Fe & Fr & Fc).
    destruct (armed_fields (set_t e (x :: l)) c cb) as (Ga & Gt & Gu & Ge & Gr & Gc).
    unfold next_async_resolved_targets. cbn [srv resolver].
    pose proof (have_targets_resume C
                  (mkEnv (set_targets (srv env) (x :: l))
                     (mkResolver (answers (resolver env)) (S (calls (resolver env)))))
                  (mkSimple cb None None) (set_t (armed e c cb) (x :: l))
                  (pending_work (armed e c cb)
                     (Waiting (LookupInFlight (LookupOk (x :: l)))) - 1)) as Hw.
    destruct (next_async_have_targets C (set_t (armed e c cb) (x :: l))) as [e' s'].
    simpl fst in Hw; simpl snd in Hw. rewrite Hw.
    + simpl use_proxy. simpl addr_enum. simpl t. simpl error.
      rewrite Fa, Fu, Fe.
      rewrite (suspending_after_fields (armed (set_t e (x :: l)) c cb)
                 (set_t (armed e c cb) (x :: l))); [reflexivity | |].
      * simpl. now rewrite Fu, Gu.
      * simpl. now rewrite Fc, Gc.
    + simpl. exact Fr.
    + unfold work. simpl. destruct (addr_enum (armed e c cb)); lia.
Qed.

End StepProperties.

Section SystemProperties.

Context (C : Collaborators).

(** ** Enumerators made after the service was resolved *)





(** ** Cursors stand on the stored list *)

Lemma next_cursor_on_targets (env : Env) (e : Enumerator) c :
  t e `suffix_of` targets (srv env) ->
  t (snd (fst (g_network_service_address_enumerator_next C env e c)))
    `suffix_of` targets (srv (fst (fst (g_network_service_address_enumerator_next C env e c)))).
Proof.
  intros H. destruct (targets (srv env)) as [| y0 l0] eqn:Ht.
  - unfold g_network_service_address_enumerator_next. rewrite Ht. simpl.
    destruct (answers _ _ _ _ _) as [[| y l] | x]; simpl; try (rewrite Ht; exact H).
    set (env' := mkEnv (set_targets (srv env) (y :: l)) _).
    rewrite <- (next_resolved C env' (set_t e (y :: l)) c) by discriminate.
    rewrite next_is_walk by discriminate. simpl.
    pose proof (resume_rest_suffix (blocking_child C (srv env') (use_proxy e))
                  (addr_enum e) (y :: l) (error e)) as Hs.
    unfold blocking_after. destruct (w_end _); exact Hs.
  - assert (Hr : targets (srv env) <> []) by (rewrite Ht; discriminate).
    rewrite next_is_walk by exact Hr. simpl. rewrite Ht.
    etransitivity; [| exact H].
    pose proof (resume_rest_suffix (blocking_child C (srv env) (use_proxy e))
                  (addr_enum e) (t e) (error e)) as Hs.
    unfold blocking_after. destruct (w_end _); exact Hs.
Qed.

Lemma next_suspending_cursor_on_targets (env : Env) (e : Enumerator) c cb :
  t e `suffix_of` targets (srv env) ->
  t (snd (fst (next_suspending C env e c cb)))
    `suffix_of` targets (srv (fst (fst (next_suspending C env e c cb)))).
Proof.
  intros H. destruct (result e) as [simple |] eqn:Hres.
  { now rewrite (next_suspending_rejected C env e c cb simple Hres). }
  destruct (targets (srv env)) as [| y0 l0] eqn:Ht.
  - rewrite next_suspending_unresolved by assumption. fold (armed e c cb).
    destruct (armed_fields e c cb) as (Fa & Ft & Fu & Fe & Fr & Fc).
    destruct (next_answer env) as [l | x]; unfold next_async_resolved_targets;
      cbn [srv resolver].
    + pose proof (have_targets_resume C
                    (mkEnv (set_targets (srv env) l)
                       (mkResolver (answers (resolver env)) (S (calls (resolver env)))))
                    (mkSimple cb None None) (set_t (armed e c cb) l)
                    (pending_work (armed e c cb) (Waiting (LookupInFlight (LookupOk l))) - 1))
        as Hw.
      destruct (next_async_have_targets C (set_t (armed e c cb) l)) as [e' s'].
      simpl fst in Hw; simpl snd in Hw. rewrite Hw.
      * simpl.
        pose proof (resume_rest_suffix (suspending_child C (use_proxy (armed e c cb)))
                      (addr_enum (armed e c cb)) l (error (armed e c cb))) as Hs.
        unfold suspending_after. destruct (w_end _); exact Hs.
      * simpl. exact Fr.
      * unfold work. simpl. destruct (addr_enum (armed e c cb)); lia.
    + unfold complete. simpl. rewrite Fr. simpl. rewrite Ft. exact H.
  - assert (Hr : targets (srv env) <> []) by (rewrite Ht; discriminate).
    rewrite next_suspending_is_walk by assumption. simpl. rewrite Ht.
    etransitivity; [| exact H].
    pose proof (resume_rest_suffix (suspending_child C (use_proxy e))
                  (addr_enum e) (t e) (error e)) as Hs.
    unfold suspending_after. destruct (w_end _); exact Hs.
Qed.

(** The stored list changes only from empty to an answer. *)
Lemma targets_only_appear (env env' : Env) (l : list GSrvTarget) :
  (targets (srv env) <> [] -> env' = env) ->
  l `suffix_of` targets (srv env) -> l `suffix_of` targets (srv env').
Proof.
  intros Hk H. destruct (targets (srv env)) as [| y l0] eqn:Ht.
  - apply suffix_nil_inv in H. subst. apply suffix_nil.
  - rewrite Hk by discriminate. now rewrite Ht.
Qed.

Lemma sys_step_cursors (sys : System) (a : Action) :
  cursors_on_targets sys -> cursors_on_targets (fst (sys_step C sys a)).
Proof.
  unfold cursors_on_targets. intros H. destruct a as [| | s | i c | i c cb].
  - simpl. apply Forall_app_2; [exact H |]. apply Forall_singleton. apply suffix_nil.
  - simpl. apply Forall_app_2; [exact H |]. apply Forall_singleton. apply suffix_nil.
  - exact H.
  - destruct (enums sys !! i) as [e |] eqn:E;
      [| unfold sys_step; rewrite E; exact H].
    rewrite (sys_step_next C sys i e c E). simpl.
    apply Forall_insert.
    + apply (Forall_impl _ _ _ H). intros e2. apply targets_only_appear.
      apply next_resolved_env.
    + apply next_cursor_on_targets. exact (Forall_lookup_1 _ _ _ _ H E).
  - destruct (enums sys !! i) as [e |] eqn:E;
      [| unfold sys_step; rewrite E; exact H].
    rewrite (sys_step_next_suspending C sys i e c cb E). simpl.
    apply Forall_insert.
    + apply (Forall_impl _ _ _ H). intros e2. apply targets_only_appear.
      apply next_suspending_resolved_env.
    + apply next_suspending_cursor_on_targets. exact (Forall_lookup_1 _ _ _ _ H E).
Qed.

(** X13. In every state a service and its enumerators reach by making
    enumerators, changing the scheme and taking steps of either mode,
    the cursor of each enumerator stands on a tail of the target list
    stored in the service; while the service has no targets, every
    cursor is empty. *)
Theorem cursors_stay_on_targets (s p d : string)
    (ans : nat -> string -> string -> string -> LookupResult) (acts : list Action) :
  cursors_on_targets (run C (initial s p d ans) acts)
  /\ (targets (srv (env (run C (initial s p d ans) acts))) = [] ->
      Forall (fun e => t e = []) (enums (run C (initial s p d ans) acts))).
Proof.
  assert (H : cursors_on_targets (run C (initial s p d ans) acts)).
  { assert (G : forall acts sys, cursors_on_targets sys -> cursors_on_targets (run C sys acts)).
    { clear acts. induction acts as [| a acts IH]; intros sys Hs; simpl; [exact Hs |].
      apply IH. now apply sys_step_cursors. }
    apply G. apply Forall_nil_2. }
  split; [exact H |]. intros Ht. unfold cursors_on_targets in H. rewrite Ht in H.
  apply (Forall_impl _ _ _ H). intros e. apply suffix_nil_inv.
Qed.

End SystemProperties.

(** ** Properties of the service object *)

(** X14. A string stored through [set_property] under one of the four
    ids is read back by [get_property] under the same id, and the
    properties under the other ids read as before, with one exception:
    while no scheme is set the scheme reads as the service name, so
    storing the service changes what the scheme reads. *)
Theorem property_round_trip (srv : GNetworkService) (id : nat) (v : string) :
  PROP_SERVICE <= id <= PROP_SCHEME ->
  g_network_service_get_property (g_network_service_set_property srv id v) id = Some v
  /\ (forall id', id' <> id ->
        (id = PROP_SERVICE -> id' = PROP_SCHEME -> scheme srv <> None) ->
        g_network_service_get_property (g_network_service_set_property srv id v) id'
          = g_network_service_get_property srv id').
Proof.
  unfold PROP_SERVICE, PROP_SCHEME. intros H.
  assert (Hid : id = 1 \/ id = 2 \/ id = 3 \/ id = 4) by lia.
  destruct Hid as [-> | [-> | [-> | ->]]]; (split; [reflexivity |]); intros id' Hne Hs;
    destruct id' as [| [| [| [| [| k]]]]]; try reflexivity; try contradiction.
  specialize (Hs eq_refl eq_refl). unfold g_network_service_get_property,
      g_network_service_get_scheme; simpl. destruct (scheme srv); [reflexivity | contradiction].
Qed.

(** An id outside the four is refused: [set_property] stores nothing
    and [get_property] reads nothing. *)
Lemma property_unknown_id (srv : GNetworkService) (id : nat) (v : string) :
  id = PROP_0 \/ PROP_SCHEME < id ->
  g_network_service_set_property srv id v = srv
  /\ g_network_service_get_property srv id = None.
Proof.
  unfold PROP_0, PROP_SCHEME. intros H.
  destruct id as [| [| [| [| [| k]]]]]; try lia; split; reflexivity.
Qed.

(** X15. The class installs the property named "scheme" under the id of
    "domain", and no property under [PROP_SCHEME].  So the id that goes
    with the name "scheme" makes [set_property] store the value as the
    domain, with the scheme left as it was and no notification of a
    scheme change, and makes [get_property] read the domain. *)
Theorem scheme_installed_as_domain (srv : GNetworkService) (id : nat) (v : string) :
  installed_id "scheme" = Some id ->
  id = PROP_DOMAIN
  /\ (forall name, installed_id name <> Some PROP_SCHEME)
  /\ g_network_service_get_domain (g_network_service_set_property srv id v) = v
  /\ scheme (g_network_service_set_property srv id v) = scheme srv
  /\ notified (g_network_service_set_property srv id v) = notified srv
  /\ g_network_service_get_property srv id = Some (g_network_service_get_domain srv).
Proof.
  intros H. vm_compute in H. simplify_eq. split; [reflexivity |]. split.
  - intros name.
    unfold installed_id, g_network_service_class_init. cbn [List.find snd].
    repeat (destruct (String.eqb _ name); [vm_compute; discriminate |]).
    vm_compute; discriminate.
  - repeat split.
Qed.

Section SkippedTargets.

Context (C : Collaborators).

(** ** Targets the blocking mode refuses *)

Lemma blocking_child_scheme (srv1 srv2 : GNetworkService) (up : bool) (x : GSrvTarget) :
  g_network_service_get_scheme srv1 = g_network_service_get_scheme srv2 ->
  blocking_child C srv1 up x = blocking_child C srv2 up x.
Proof.
  intros H. unfold blocking_child. now rewrite H.
Qed.

(** Where a step starts to take targets: the step is the step from the
    state reached, the service has targets there and the cursor no
    child; scheme, proxy mode, cancellable and result are as at the
    start of the step. *)
Lemma walk_start_reached (env env1 : Env) (e e1 : Enumerator) (c : option GCancellable) :
  walk_start env e env1 e1 ->
  g_network_service_address_enumerator_next C env e c
    = g_network_service_address_enumerator_next C env1 e1 c
  /\ targets (srv env1) <> [] /\ addr_enum e1 = None
  /\ g_network_service_get_scheme (srv env1) = g_network_service_get_scheme (srv env)
  /\ use_proxy e1 = use_proxy e /\ cancellable e1 = cancellable e /\ result e1 = result e.
Proof.
  intros H. destruct H as [env e y l Ht Ha Hc | env e ch ch' x Hr Ha Hp].
  - split.
    + rewrite (next_resolved C (mkEnv _ _)) by discriminate.
      unfold g_network_service_address_enumerator_next at 1. rewrite Ht.
      unfold g_resolver_lookup_service. fold (next_answer env). now rewrite Ha.
    + repeat split; try discriminate; exact Hc.
  - destruct (record_error_fields e x) as (Fa & Ft & Fu & Fr & Fc). split.
    + now apply (next_child_error C env e c ch ch' x).
    + repeat split; assumption.
Qed.

Lemma slot_after_cons (f : GSrvTarget -> GError + Child) y pre slot :
  slot_after f (y :: pre) slot
    = slot_after f pre (match fails_at_once f y with
                        | Some err => first_write slot err
                        | None => slot
                        end).
Proof.
  reflexivity.
Qed.

(** Targets that fail at once are walked over, one by one. *)
Lemma walk_skip_prefix (f : GSrvTarget -> GError + Child) (pre : list GSrvTarget) :
  Forall (fun y => fails_at_once f y <> None) pre ->
  forall ts slot, walk f (pre ++ ts)%list slot = walk f ts (slot_after f pre slot).
Proof.
  induction 1 as [| y pre Hy _ IH]; intros ts slot; [reflexivity |].
  rewrite slot_after_cons. simpl app. simpl walk.
  destruct (fails_at_once f y) as [err |] eqn:E; [| contradiction].
  revert E. unfold fails_at_once, pulled. destruct (f y) as [err0 | cy].
  - intros E. simplify_eq. apply IH.
  - destruct (g_socket_address_enumerator_next cy) as [[a | err0 |] cy']; intros E;
      simplify_eq. apply IH.
Qed.

(** An address a walk ends on is the first pull of the child of one of
    the targets walked, and the cursor is left right after that target. *)
Lemma walk_yield_origin (f : GSrvTarget -> GError + Child) (ts : list GSrvTarget) :
  forall slot a,
    w_end (walk f ts slot) = Yielded a ->
    exists pre2 y rest2 cy cy',
      ts = (pre2 ++ y :: rest2)%list /\ f y = inr cy
      /\ g_socket_address_enumerator_next cy = (Yield a, cy')
      /\ w_rest (walk f ts slot) = rest2.
Proof.
  induction ts as [| y0 ts IH]; intros slot a; simpl; [discriminate |].
  destruct (f y0) as [err | c] eqn:Ef.
  - intros H. destruct (IH _ _ H) as (pre2 & y & rest2 & cy & cy' & -> & Hf & Hp & Hr).
    exists (y0 :: pre2), y, rest2, cy, cy'. repeat split; assumption.
  - unfold pulled. destruct (g_socket_address_enumerator_next c) as [[a0 | err |] c'] eqn:Ep;
      simpl.
    + intros H. simplify_eq. exists [], y0, ts, c, c'. repeat split; assumption.
    + intros H. destruct (IH _ _ H) as (pre2 & y & rest2 & cy & cy' & -> & Hf & Hp & Hr).
      exists (y0 :: pre2), y, rest2, cy, cy'. repeat split; assumption.
    + discriminate.
Qed.

(** A blocking step that comes upon a target [x] the blocking mode
    refuses with [err], after targets [pre] that fail at once. *)
Lemma refused_target_is_skipped (env env1 : Env) (e e1 : Enumerator)
    (c : option GCancellable) (pre : list GSrvTarget) (x : GSrvTarget)
    (rest : list GSrvTarget) (err : GError) :
  let child_of := blocking_child C (srv env) (use_proxy e) in
  let slot := first_write (slot_after child_of pre (error e1)) err in
  walk_start env e env1 e1 ->
  t e1 = (pre ++ x :: rest)%list ->
  Forall (fun y => fails_at_once child_of y <> None) pre ->
  child_of x = inl err ->
  g_network_service_address_enumerator_next C env e c
    = (env1, fst (blocking_after e (walk child_of rest slot)),
       snd (blocking_after e (walk child_of rest slot)))
  /\ (rest = [] ->
      g_network_service_address_enumerator_next C env e c
        = (env1, mkEnum None [] (use_proxy e) None (cancellable e) (result e), (None, slot)))
  /\ (forall y rest' cy cy' a,
        rest = y :: rest' -> child_of y = inr cy ->
        g_socket_address_enumerator_next cy = (Yield a, cy') ->
        g_network_service_address_enumerator_next C env e c
          = (env1, mkEnum (Some cy') rest' (use_proxy e) slot (cancellable e) (result e),
             (Some a, None)))
  /\ (forall a,
        fst (snd (g_network_service_address_enumerator_next C env e c)) = Some a ->
        exists pre2 y rest2 cy cy',
          rest = (pre2 ++ y :: rest2)%list /\ child_of y = inr cy
          /\ g_socket_address_enumerator_next cy = (Yield a, cy')
          /\ t (snd (fst (g_network_service_address_enumerator_next C env e c))) = rest2).
Proof.
  intros child_of slot Hs Ht Hpre Hx.
  destruct (walk_start_reached env env1 e e1 c Hs) as (Hn & Hr & Ha & Hsch & Fu & Fc & Fr).
  assert (Hbc : forall ts s0,
             walk (blocking_child C (srv env1) (use_proxy e1)) ts s0 = walk child_of ts s0).
  { intros ts s0. apply walk_ext. apply Forall_forall. intros y _.
    unfold child_of. rewrite Fu. now apply blocking_child_scheme. }
  assert (Heq : g_network_service_address_enumerator_next C env e c
                = (env1, fst (blocking_after e (walk child_of rest slot)),
                   snd (blocking_after e (walk child_of rest slot)))).
  { rewrite Hn, next_is_walk by exact Hr. rewrite Ha, Ht. unfold resume.
    rewrite Hbc, (walk_skip_prefix child_of pre Hpre). simpl walk. rewrite Hx. fold slot.
    now rewrite (blocking_after_fields e e1). }
  split; [exact Heq |]. split; [| split].
  - intros ->. rewrite Heq. reflexivity.
  - intros y rest' cy cy' a -> Hy Hp. rewrite Heq. simpl walk. rewrite Hy.
    unfold pulled. rewrite Hp. reflexivity.
  - intros a. rewrite Heq. simpl.
    pose proof (walk_yield_origin child_of rest slot) as Ho.
    unfold blocking_after. destruct (w_end (walk child_of rest slot)) as [a0 | |] eqn:Ew;
      simpl; intros H; try discriminate H.
    simplify_eq. exact (Ho a eq_refl).
Qed.

(** C9. Take a blocking step that takes targets from the cursor, that
    is, the step that resolves the service or a step whose active child
    has just failed, and let it come, after any targets [pre] that fail
    at once, upon a target [x] whose hostname converts to ASCII but
    whose URI, built with the scheme of the service, does not parse into
    a network address.  Then [x] is skipped: the parse error is in the
    slot exactly when nothing was recorded before it, and the step goes
    on with the targets after [x]; its whole result is the walk over
    them.  If none follows, the step returns no address and hands over
    the slot.  If the target that follows has a child whose first pull
    gives an address, the step returns that address, keeps that child
    and keeps the slot.  And whatever address the step returns is the
    first pull on the child of a target after [x]: [x] gives none. *)
Theorem unparsable_uri_target_skipped (env env1 : Env) (e e1 : Enumerator)
    (c : option GCancellable) (pre : list GSrvTarget) (x : GSrvTarget)
    (rest : list GSrvTarget) (h : string) (err : GError) :
  let child_of := blocking_child C (srv env) (use_proxy e) in
  let slot := first_write (slot_after child_of pre (error e1)) err in
  walk_start env e env1 e1 ->
  t e1 = (pre ++ x :: rest)%list ->
  Forall (fun y => fails_at_once child_of y <> None) pre ->
  g_hostname_to_ascii C (hostname x) = Some h ->
  g_network_address_parse_uri C
    (g_uri_from_authority C (g_network_service_get_scheme (srv env)) h (port x)) (port x)
    = inl err ->
  g_network_service_address_enumerator_next C env e c
    = (env1, fst (blocking_after e (walk child_of rest slot)),
       snd (blocking_after e (walk child_of rest slot)))
  /\ (rest = [] ->
      g_network_service_address_enumerator_next C env e c
        = (env1, mkEnum None [] (use_proxy e) None (cancellable e) (result e), (None, slot)))
  /\ (forall y rest' cy cy' a,
        rest = y :: rest' -> child_of y = inr cy ->
        g_socket_address_enumerator_next cy = (Yield a, cy') ->
        g_network_service_address_enumerator_next C env e c
          = (env1, mkEnum (Some cy') rest' (use_proxy e) slot (cancellable e) (result e),
             (Some a, None)))
  /\ (forall a,
        fst (snd (g_network_service_address_enumerator_next C env e c)) = Some a ->
        exists pre2 y rest2 cy cy',
          rest = (pre2 ++ y :: rest2)%list /\ child_of y = inr cy
          /\ g_socket_address_enumerator_next cy = (Yield a, cy')
          /\ t (snd (fst (g_network_service_address_enumerator_next C env e c))) = rest2).
Proof.
  intros child_of slot Hs Ht Hpre Hh Hp.
  apply (refused_target_is_skipped env env1 e e1 c pre x rest err Hs Ht Hpre).
  unfold blocking_child. now rewrite Hh, Hp.
Qed.

(** X20. The same for a target [x] whose hostname does not convert to
    ASCII, met by the step that resolves the service or by a step whose
    active child has just failed, after any targets [pre] that fail at
    once.  The error "Received invalid hostname '...' from GSrvTarget"
    (invalid argument) is in the slot exactly when nothing was recorded
    before it; the result of the step is the walk over the targets after
    [x]: with none, no address and the slot handed over; with a next
    target whose child gives an address, that address; and any address
    returned is the first pull on the child of a target after [x]. *)
Theorem unconvertible_hostname_target_skipped (env env1 : Env) (e e1 : Enumerator)
    (c : option GCancellable) (pre : list GSrvTarget) (x : GSrvTarget)
    (rest : list GSrvTarget) :
  let child_of := blocking_child C (srv env) (use_proxy e) in
  let slot :=
    first_write (slot_after child_of pre (error e1))
      (mkGError G_IO_ERROR G_IO_ERROR_INVALID_ARGUMENT
         ("Received invalid hostname '" ++ hostname x ++ "' from GSrvTarget")) in
  walk_start env e env1 e1 ->
  t e1 = (pre ++ x :: rest)%list ->
  Forall (fun y => fails_at_once child_of y <> None) pre ->
  g_hostname_to_ascii C (hostname x) = None ->
  g_network_service_address_enumerator_next C env e c
    = (env1, fst (blocking_after e (walk child_of rest slot)),
       snd (blocking_after e (walk child_of rest slot)))
  /\ (rest = [] ->
      g_network_service_address_enumerator_next C env e c
        = (env1, mkEnum None [] (use_proxy e) None (cancellable e) (result e), (None, slot)))
  /\ (forall y rest' cy cy' a,
        rest = y :: rest' -> child_of y = inr cy ->
        g_socket_address_enumerator_next cy = (Yield a, cy') ->
        g_network_service_address_enumerator_next C env e c
          = (env1, mkEnum (Some cy') rest' (use_proxy e) slot (cancellable e) (result e),
             (Some a, None)))
  /\ (forall a,
        fst (snd (g_network_service_address_enumerator_next C env e c)) = Some a ->
        exists pre2 y rest2 cy cy',
          rest = (pre2 ++ y :: rest2)%list /\ child_of y = inr cy
          /\ g_socket_address_enumerator_next cy = (Yield a, cy')
          /\ t (snd (fst (g_network_service_address_enumerator_next C env e c))) = rest2).
Proof.
  intros child_of slot Hs Ht Hpre Hh.
  apply (refused_target_is_skipped env env1 e e1 c pre x rest
           (invalid_hostname_error (hostname x)) Hs Ht Hpre).
  unfold blocking_child. now rewrite Hh.
Qed.

End SkippedTargets.

(** ** The further properties on concrete services *)

Module Instances.

Import Demo.

Lemma blocking_step_is_walk_witness :
  targets (srv (resolved [down; ldap2; ldap3])) <> []
  /\ g_network_service_address_enumerator_next collaborators
       (resolved [down; ldap2; ldap3]) (cursor [down; ldap2; ldap3]) None
     = (resolved [down; ldap2; ldap3],
        mkEnum (Some []) [ldap3] false (Some unreachable) None None,
        (Some "10.0.1.1:389", None)).
Proof.
  assert (H : targets (srv (resolved [down; ldap2; ldap3])) <> []) by discriminate.
  split; [exact H |].
  exact (blocking_step_is_walk collaborators (resolved [down; ldap2; ldap3])
           (cursor [down; ldap2; ldap3]) None H).
Defined.

Lemma suspending_step_is_walk_witness :
  targets (srv (resolved [down; ldap2; ldap3])) <> []
  /\ result (cursor [down; ldap2; ldap3]) = None
  /\ next_suspending collaborators
       (resolved [down; ldap2; ldap3]) (cursor [down; ldap2; ldap3]) (Some 4) 7
     = (resolved [down; ldap2; ldap3],
        mkEnum (Some []) [ldap3] false (Some unreachable) (Some 4) None,
        Completed (mkSimple 7 None (Some "10.0.1.1:389"))).
Proof.
  assert (H : targets (srv (resolved [down; ldap2; ldap3])) <> []) by discriminate.
  split; [exact H |]. split; [reflexivity |].
  exact (suspending_step_is_walk collaborators (resolved [down; ldap2; ldap3])
           (cursor [down; ldap2; ldap3]) (Some 4) 7 H eq_refl).
Defined.

Lemma modes_agree_on_agreeing_children_witness :
  targets (srv (resolved [down; ldap2; ldap3])) <> []
  /\ result (cursor [down; ldap2; ldap3]) = None
  /\ Forall (fun x => blocking_child collaborators (srv (resolved [down; ldap2; ldap3]))
                        (use_proxy (cursor [down; ldap2; ldap3])) x
                      = suspending_child collaborators
                          (use_proxy (cursor [down; ldap2; ldap3])) x)
            (t (cursor [down; ldap2; ldap3]))
  /\ exists rs,
       delivered (snd (next_suspending collaborators (resolved [down; ldap2; ldap3])
                         (cursor [down; ldap2; ldap3]) None 7)) = Some rs
       /\ fst (snd (g_network_service_address_enumerator_next collaborators
                      (resolved [down; ldap2; ldap3]) (cursor [down; ldap2; ldap3]) None))
          = fst rs.
Proof.
  assert (H1 : targets (srv (resolved [down; ldap2; ldap3])) <> []) by discriminate.
  assert (H3 : Forall (fun x => blocking_child collaborators
                                  (srv (resolved [down; ldap2; ldap3]))
                                  (use_proxy (cursor [down; ldap2; ldap3])) x
                                = suspending_child collaborators
                                    (use_proxy (cursor [down; ldap2; ldap3])) x)
                      (t (cursor [down; ldap2; ldap3])))
    by (repeat constructor).
  split; [exact H1 |]. split; [reflexivity |]. split; [exact H3 |].
  destruct (modes_agree_on_agreeing_children collaborators (resolved [down; ldap2; ldap3])
              (cursor [down; ldap2; ldap3]) None None 7 H1 eq_refl H3)
    as (rs & Hd & _ & _ & Hf & _).
  exists rs. split; [exact Hd | exact Hf].
Defined.

Lemma failing_targets_give_first_error_witness :
  targets (srv (resolved [garbled; hostless; down])) <> []
  /\ addr_enum (cursor [garbled; hostless; down]) = None
  /\ error (cursor [garbled; hostless; down]) = None
  /\ t (cursor [garbled; hostless; down]) = garbled :: [hostless; down]
  /\ Forall (fun y => fails_at_once
                        (blocking_child collaborators (srv (resolved [garbled; hostless; down]))
                           (use_proxy (cursor [garbled; hostless; down]))) y <> None)
            (garbled :: [hostless; down])
  /\ exists err,
       fails_at_once
         (blocking_child collaborators (srv (resolved [garbled; hostless; down]))
            (use_proxy (cursor [garbled; hostless; down]))) garbled = Some err
       /\ g_network_service_address_enumerator_next collaborators
            (resolved [garbled; hostless; down]) (cursor [garbled; hostless; down]) None
          = (resolved [garbled; hostless; down],
             mkEnum None [] false None None None, (None, Some err)).
Proof.
  assert (H1 : targets (srv (resolved [garbled; hostless; down])) <> []) by discriminate.
  assert (H5 : Forall (fun y => fails_at_once
                                  (blocking_child collaborators
                                     (srv (resolved [garbled; hostless; down]))
                                     (use_proxy (cursor [garbled; hostless; down]))) y
                                <> None)
                      (garbled :: [hostless; down]))
    by (repeat constructor; discriminate).
  split; [exact H1 |]. split; [reflexivity |]. split; [reflexivity |].
  split; [reflexivity |]. split; [exact H5 |].
  exact (failing_targets_give_first_error collaborators (resolved [garbled; hostless; down])
           (cursor [garbled; hostless; down]) None garbled [hostless; down]
           H1 eq_refl eq_refl eq_refl H5).
Defined.

Lemma failing_targets_give_first_error_suspending_witness :
  targets (srv (resolved [garbled; down])) <> []
  /\ result (cursor [garbled; down]) = None
  /\ addr_enum (cursor [garbled; down]) = None
  /\ error (cursor [garbled; down]) = None
  /\ t (cursor [garbled; down]) = garbled :: [down]
  /\ Forall (fun y => fails_at_once
                        (suspending_child collaborators (use_proxy (cursor [garbled; down]))) y
                      <> None)
            (garbled :: [down])
  /\ exists err,
       fails_at_once (suspending_child collaborators (use_proxy (cursor [garbled; down])))
         garbled = Some err
       /\ delivered (snd (next_suspending collaborators (resolved [garbled; down])
                            (cursor [garbled; down]) None 7)) = Some (None, Some err).
Proof.
  assert (H1 : targets (srv (resolved [garbled; down])) <> []) by discriminate.
  assert (H6 : Forall (fun y => fails_at_once
                                  (suspending_child collaborators
                                     (use_proxy (cursor [garbled; down]))) y <> None)
                      (garbled :: [down]))
    by (repeat constructor; discriminate).
  split; [exact H1 |]. split; [reflexivity |]. split; [reflexivity |].
  split; [reflexivity |]. split; [reflexivity |]. split; [exact H6 |].
  destruct (failing_targets_give_first_error_suspending collaborators
              (resolved [garbled; down]) (cursor [garbled; down]) None 7 garbled [down]
              H1 eq_refl eq_refl eq_refl eq_refl H6) as (err & Hf & _ & Hd).
  exists err. split; [exact Hf | exact Hd].
Defined.

Lemma cursor_moves_forward_witness :
  targets (srv (resolved [down; ldap2; ldap3])) <> []
  /\ t (snd (fst (g_network_service_address_enumerator_next collaborators
                    (resolved [down; ldap2; ldap3]) (cursor [down; ldap2; ldap3]) None)))
     `suffix_of` t (cursor [down; ldap2; ldap3])
  /\ t (snd (fst (next_suspending collaborators
                    (resolved [down; ldap2; ldap3]) (cursor [down; ldap2; ldap3]) None 7)))
     `suffix_of` t (cursor [down; ldap2; ldap3]).
Proof.
  assert (H : targets (srv (resolved [down; ldap2; ldap3])) <> []) by discriminate.
  split; [exact H |].
  exact (cursor_moves_forward collaborators (resolved [down; ldap2; ldap3])
           (cursor [down; ldap2; ldap3]) None 7 H).
Defined.

Lemma recorded_error_kept_or_handed_over_witness :
  targets (srv (resolved [down; ldap2])) <> []
  /\ error burdened = Some unreachable
  /\ ((error (snd (fst (g_network_service_address_enumerator_next collaborators
                          (resolved [down; ldap2]) burdened None))) = Some unreachable
       /\ fst (snd (g_network_service_address_enumerator_next collaborators
                      (resolved [down; ldap2]) burdened None)) <> None
       /\ snd (snd (g_network_service_address_enumerator_next collaborators
                      (resolved [down; ldap2]) burdened None)) = None)
      \/ (error (snd (fst (g_network_service_address_enumerator_next collaborators
                             (resolved [down; ldap2]) burdened None))) = None
          /\ snd (g_network_service_address_enumerator_next collaborators
                    (resolved [down; ldap2]) burdened None) = (None, Some unreachable))).
Proof.
  assert (H : targets (srv (resolved [down; ldap2])) <> []) by discriminate.
  split; [exact H |]. split; [reflexivity |].
  exact (proj1 (recorded_error_kept_or_handed_over collaborators (resolved [down; ldap2])
                  burdened None 7 unreachable H eq_refl)).
Defined.

Lemma never_address_and_error_witness :
  (fst (snd (g_network_service_address_enumerator_next collaborators
               (resolved [ldap1]) (cursor [ldap1]) None)) = None
   \/ snd (snd (g_network_service_address_enumerator_next collaborators
                  (resolved [ldap1]) (cursor [ldap1]) None)) = None)
  /\ (forall rs,
        delivered (snd (next_suspending collaborators (resolved [ldap1]) (cursor [ldap1])
                          None 7)) = Some rs ->
        fst rs = None \/ snd rs = None).
Proof.
  exact (never_address_and_error collaborators (resolved [ldap1]) (cursor [ldap1]) None 7).
Defined.

Lemma failed_lookup_reported_not_kept_witness :
  targets (srv unanswered) = []
  /\ next_answer unanswered = LookupError (not_found "_ldap._tcp.example.com")
  /\ g_network_service_address_enumerator_next collaborators unanswered (cursor []) None
     = (mkEnv (srv unanswered)
              (mkResolver (answers (resolver unanswered)) (S (calls (resolver unanswered)))),
        cursor [], (None, Some (not_found "_ldap._tcp.example.com"))).
Proof.
  split; [reflexivity |]. split; [reflexivity |].
  exact (proj1 (failed_lookup_reported_not_kept collaborators unanswered (cursor []) None 7
                  (not_found "_ldap._tcp.example.com") eq_refl eq_refl)).
Defined.


Lemma cursors_stay_on_targets_witness :
  cursors_on_targets
    (run collaborators (initial "ldap" "tcp" "example.com" (always (LookupOk [ldap1; ldap2])))
       [Enumerate; Next 0 None; ProxyEnumerate; NextSuspending 1 None 7; Next 0 None])
  /\ (targets (srv (env (run collaborators
                           (initial "ldap" "tcp" "example.com"
                              (always (LookupOk [ldap1; ldap2])))
                           [Enumerate; Next 0 None; ProxyEnumerate;
                            NextSuspending 1 None 7; Next 0 None]))) = [] ->
      Forall (fun e => t e = [])
        (enums (run collaborators
                  (initial "ldap" "tcp" "example.com" (always (LookupOk [ldap1; ldap2])))
                  [Enumerate; Next 0 None; ProxyEnumerate;
                   NextSuspending 1 None 7; Next 0 None]))).
Proof.
  exact (cursors_stay_on_targets collaborators "ldap" "tcp" "example.com"
           (always (LookupOk [ldap1; ldap2]))
           [Enumerate; Next 0 None; ProxyEnumerate; NextSuspending 1 None 7; Next 0 None]).
Defined.

Lemma property_round_trip_witness :
  PROP_SERVICE <= PROP_PROTOCOL <= PROP_SCHEME
  /\ g_network_service_get_property
       (g_network_service_set_property (g_network_service_new "ldap" "tcp" "example.com")
          PROP_PROTOCOL "udp") PROP_PROTOCOL = Some "udp".
Proof.
  assert (H : PROP_SERVICE <= PROP_PROTOCOL <= PROP_SCHEME)
    by (unfold PROP_SERVICE, PROP_PROTOCOL, PROP_SCHEME; lia).
  split; [exact H |].
  exact (proj1 (property_round_trip (g_network_service_new "ldap" "tcp" "example.com")
                  PROP_PROTOCOL "udp" H)).
Defined.

Lemma scheme_installed_as_domain_witness :
  installed_id "scheme" = Some 3
  /\ g_network_service_get_domain
       (g_network_service_set_property (g_network_service_new "ldap" "tcp" "example.com")
          3 "ldaps") = "ldaps"
  /\ scheme (g_network_service_set_property
               (g_network_service_new "ldap" "tcp" "example.com") 3 "ldaps") = None.
Proof.
  split; [reflexivity |].
  destruct (scheme_installed_as_domain (g_network_service_new "ldap" "tcp" "example.com")
              3 "ldaps" eq_refl) as (_ & _ & Hd & Hs & _).
  split; [exact Hd | exact Hs].
Defined.

Lemma accepted_step_completes_witness :
  result (cursor [ldap1; ldap2]) = None
  /\ exists simple,
       snd (next_suspending collaborators (resolved [ldap1; ldap2]) (cursor [ldap1; ldap2])
              None 7) = Completed simple
       /\ callback simple = 7
       /\ result (snd (fst (next_suspending collaborators (resolved [ldap1; ldap2])
                              (cursor [ldap1; ldap2]) None 7))) = None.
Proof.
  split; [reflexivity |].
  exact (accepted_step_completes collaborators (resolved [ldap1; ldap2])
           (cursor [ldap1; ldap2]) None 7 eq_refl).
Defined.

Lemma blocking_step_end_state_witness :
  targets (srv (resolved [ldap1; ldap2])) <> []
  /\ (fst (snd (g_network_service_address_enumerator_next collaborators
                  (resolved [ldap1; ldap2]) (cursor [ldap1; ldap2]) None)) <> None ->
      addr_enum (snd (fst (g_network_service_address_enumerator_next collaborators
                             (resolved [ldap1; ldap2]) (cursor [ldap1; ldap2]) None)))
        <> None).
Proof.
  assert (H : targets (srv (resolved [ldap1; ldap2])) <> []) by discriminate.
  split; [exact H |].
  exact (proj1 (blocking_step_end_state collaborators (resolved [ldap1; ldap2])
                  (cursor [ldap1; ldap2]) None H)).
Defined.

Lemma suspending_child_in_range_witness :
  (0 <= port ldap1 < 65536)%Z
  /\ suspending_child collaborators false ldap1
     = inr (g_socket_connectable_enumerate collaborators
              (g_network_address_new collaborators (hostname ldap1) (port ldap1))).
Proof.
  assert (H : (0 <= port ldap1 < 65536)%Z) by (simpl; lia).
  split; [exact H |].
  exact (suspending_child_in_range collaborators false ldap1 H).
Defined.

Lemma resolving_step_starts_at_head_witness :
  targets (srv (env (ldap (LookupOk [ldap1; ldap2])))) = []
  /\ next_answer (env (ldap (LookupOk [ldap1; ldap2]))) = LookupOk (ldap1 :: [ldap2])
  /\ g_network_service_address_enumerator_next collaborators
       (env (ldap (LookupOk [ldap1; ldap2]))) (cursor []) None
     = g_network_service_address_enumerator_next collaborators
         (mkEnv (set_targets (srv (env (ldap (LookupOk [ldap1; ldap2])))) (ldap1 :: [ldap2]))
                (mkResolver (answers (resolver (env (ldap (LookupOk [ldap1; ldap2])))))
                            (S (calls (resolver (env (ldap (LookupOk [ldap1; ldap2]))))))))
         (set_t (cursor []) (ldap1 :: [ldap2])) None.
Proof.
  split; [reflexivity |]. split; [reflexivity |].
  exact (proj1 (resolving_step_starts_at_head collaborators
                  (env (ldap (LookupOk [ldap1; ldap2]))) (cursor []) None 7
                  ldap1 [ldap2] eq_refl eq_refl)).
Defined.

(** The step that resolves a service whose first target has a URI with
    no host: the parse error goes to the empty slot and the address of
    the target that follows is returned. *)
Lemma unparsable_uri_target_skipped_witness :
  walk_start unresolved_hostless (cursor [])
    (mkEnv (set_targets (srv unresolved_hostless) [hostless; ldap2])
           (mkResolver (answers (resolver unresolved_hostless))
                       (S (calls (resolver unresolved_hostless)))))
    (set_t (cursor []) [hostless; ldap2])
  /\ t (set_t (cursor []) [hostless; ldap2]) = ([] ++ hostless :: [ldap2])%list
  /\ Forall (fun y => fails_at_once
                        (blocking_child collaborators (srv unresolved_hostless)
                           (use_proxy (cursor []))) y <> None) []
  /\ g_hostname_to_ascii collaborators (hostname hostless) = Some ""
  /\ g_network_address_parse_uri collaborators
       (g_uri_from_authority collaborators
          (g_network_service_get_scheme (srv unresolved_hostless)) "" (port hostless))
       (port hostless) = inl (parse_error "ldap://:389")
  /\ g_network_service_address_enumerator_next collaborators unresolved_hostless
       (cursor []) None
     = (mkEnv (set_targets (srv unresolved_hostless) [hostless; ldap2])
              (mkResolver (answers (resolver unresolved_hostless))
                          (S (calls (resolver unresolved_hostless)))),
        mkEnum (Some []) [] false (Some (parse_error "ldap://:389")) None None,
        (Some "10.0.1.1:389", None)).
Proof.
  assert (H1 : walk_start unresolved_hostless (cursor [])
                 (mkEnv (set_targets (srv unresolved_hostless) [hostless; ldap2])
                        (mkResolver (answers (resolver unresolved_hostless))
                                    (S (calls (resolver unresolved_hostless)))))
                 (set_t (cursor []) [hostless; ldap2]))
    by (apply start_resolving; reflexivity).
  assert (H3 : Forall (fun y => fails_at_once
                                  (blocking_child collaborators (srv unresolved_hostless)
                                     (use_proxy (cursor []))) y <> None) [])
    by apply Forall_nil_2.
  split; [exact H1 |]. split; [reflexivity |]. split; [exact H3 |].
  split; [reflexivity |]. split; [reflexivity |].
  destruct (unparsable_uri_target_skipped collaborators unresolved_hostless _ (cursor []) _
              None [] hostless [ldap2] "" (parse_error "ldap://:389")
              H1 eq_refl H3 eq_refl eq_refl) as (_ & _ & Hy & _).
  exact (Hy ldap2 [] [Yield "10.0.1.1:389"] [] "10.0.1.1:389" eq_refl eq_refl eq_refl).
Defined.

(** A step whose active child fails, then a target with a refused URI,
    then one with a refused hostname, then a good one: the error of the
    child stays in the slot and the address of the good target is
    returned. *)
Lemma unconvertible_hostname_target_skipped_witness :
  walk_start (resolved [down; hostless; garbled; ldap2]) stalled
    (resolved [down; hostless; garbled; ldap2])
    (set_addr_enum (record_error stalled unreachable) None)
  /\ t (set_addr_enum (record_error stalled unreachable) None)
     = ([hostless] ++ garbled :: [ldap2])%list
  /\ Forall (fun y => fails_at_once
                        (blocking_child collaborators
                           (srv (resolved [down; hostless; garbled; ldap2]))
                           (use_proxy stalled)) y <> None) [hostless]
  /\ g_hostname_to_ascii collaborators (hostname garbled) = None
  /\ g_network_service_address_enumerator_next collaborators
       (resolved [down; hostless; garbled; ldap2]) stalled None
     = (resolved [down; hostless; garbled; ldap2],
        mkEnum (Some []) [] false (Some unreachable) None None,
        (Some "10.0.1.1:389", None)).
Proof.
  assert (H1 : walk_start (resolved [down; hostless; garbled; ldap2]) stalled
                 (resolved [down; hostless; garbled; ldap2])
                 (set_addr_enum (record_error stalled unreachable) None))
    by (apply (start_child_failed _ stalled [Fail unreachable] []);
        [discriminate | reflexivity | reflexivity]).
  assert (H3 : Forall (fun y => fails_at_once
                                  (blocking_child collaborators
                                     (srv (resolved [down; hostless; garbled; ldap2]))
                                     (use_proxy stalled)) y <> None) [hostless])
    by (repeat constructor; discriminate).
  split; [exact H1 |]. split; [reflexivity |]. split; [exact H3 |]. split; [reflexivity |].
  destruct (unconvertible_hostname_target_skipped collaborators
              (resolved [down; hostless; garbled; ldap2]) _ stalled _
              None [hostless] garbled [ldap2] H1 eq_refl H3 eq_refl) as (_ & _ & Hy & _).
  exact (Hy ldap2 [] [Yield "10.0.1.1:389"] [] "10.0.1.1:389" eq_refl eq_refl eq_refl).
Defined.

End Instances.
